(** * cloud_mdir_sync: the reconciliation engine and the authentication broker

    A shallow embedding of [cloud_mdir_sync/main.py], [config.py] and
    [oauth.py], and the properties of the two that the specification states.

    - Python dictionaries are insertion-ordered association lists.
    - Exceptions are classes with their base classes; code returns or raises.
    - The mailbox classes, the message store, provider sessions and aiohttp
      are not part of the three files.  They are a class of operations on an
      abstract world, each of which may raise and may change the world; the
      properties hold for every instance.  A dictionary handed to such an
      operation is handed over as a value.
    - Engine code runs in a state, error and event monad: every call that
      leaves the engine is recorded, in order.
    - A coroutine is cut at its suspension points: an awaited operation is
      one transition, [asyncio.gather] starts its tasks in argument order and
      raises the first exception once all were started, and
      [WebServer.auth_redir] is the registration followed by a read of the
      caller's queue.
    - The [while True] loop is run for a given number of iterations. *)

From stdpp Require Import base list strings.
From Stdlib Require Import Lia.

Open Scope string_scope.
Open Scope list_scope.

(** ** Python dictionaries

    A [dict] keeps its keys in insertion order: assigning to a key that is
    present replaces the value in place, assigning to a new key appends, and
    iteration ([keys], [values], [items]) follows that order. *)
Module PyDict.

Abbreviation dict K V := (list (K * V)) (only parsing).

Section Ops.
Context {K V : Type} `{EqDecision K}.

(** [d.get(k)]; [d[k]] raises [KeyError] exactly when this is [None]. *)
Fixpoint dict_get (k : K) (d : dict K V) : option V :=
  match d with
  | [] => None
  | (k', v) :: d' => if decide (k = k') then Some v else dict_get k d'
  end.

(** [d[k] = v] *)
Fixpoint dict_set (k : K) (v : V) (d : dict K V) : dict K V :=
  match d with
  | [] => [(k, v)]
  | (k', v') :: d' =>
      if decide (k = k') then (k', v) :: d' else (k', v') :: dict_set k v d'
  end.

(** [del d[k]], used in the source only after [d[k]] succeeded. *)
Fixpoint dict_del (k : K) (d : dict K V) : dict K V :=
  match d with
  | [] => []
  | (k', v') :: d' =>
      if decide (k = k') then d' else (k', v') :: dict_del k d'
  end.

Definition dict_keys (d : dict K V) : list K := d.*1.
Definition dict_values (d : dict K V) : list V := d.*2.
Definition dict_items (d : dict K V) : list (K * V) := d.

(** [{k: v0 for k in ks}] built by successive assignment. *)
Definition dict_fromkeys (ks : list K) (v0 : V) : dict K V :=
  foldl (fun d k => dict_set k v0 d) [] ks.
End Ops.

End PyDict.
Export PyDict.

(** ** Exceptions

    The exception classes that the engine and the broker raise or name in an
    [except] clause, with the part of Python's class hierarchy they sit in.
    [IOError] is an alias of [OSError].  [asyncio.TimeoutError] is kept as a
    class of its own below [Exception]. *)
Module Exc.

Inductive ExcClass : Type :=
  | BaseException | Exception
  | KeyboardInterrupt | CancelledError
  | OSError | FileNotFoundError | ConnectionResetError
  | AsyncioTimeoutError
  | ClientError | ClientConnectionError
  | RuntimeError | NotImplementedError
  | LookupError | KeyError | IndexError
  | ValueError.

#[export] Instance ExcClass_eq_dec : EqDecision ExcClass.
Proof. solve_decision. Defined.

Definition IOError : ExcClass := OSError.

(** The direct base class; [None] for the root. *)
Definition base (c : ExcClass) : option ExcClass :=
  match c with
  | BaseException => None
  | Exception | KeyboardInterrupt | CancelledError => Some BaseException
  | OSError | AsyncioTimeoutError | ClientError | RuntimeError
  | LookupError | ValueError => Some Exception
  | FileNotFoundError | ConnectionResetError => Some OSError
  | ClientConnectionError => Some ClientError
  | NotImplementedError => Some RuntimeError
  | KeyError | IndexError => Some LookupError
  end.

(** The method resolution order: the class and its ancestors.  No chain is
  longer than four classes. *)
Fixpoint mro_upto (n : nat) (c : ExcClass) : list ExcClass :=
  match n with
  | 0 => [c]
  | S n' => c :: match base c with Some b => mro_upto n' b | None => [] end
  end.

Definition mro (c : ExcClass) : list ExcClass := mro_upto 4 c.

(** [isinstance(e, c)] for an exception [e] of class [cls]. *)
Definition isinstance (cls c : ExcClass) : bool := bool_decide (c ∈ mro cls).

(** [except (c1, ..., cn):] *)
Definition except_matches (clause : list ExcClass) (cls : ExcClass) : bool :=
  existsb (isinstance cls) clause.

(** The result of running a piece of code: it returns or it raises. *)
Inductive Outcome (A : Type) : Type :=
  | Return (a : A)
  | Raise (e : ExcClass).
Arguments Return {A} a.
Arguments Raise {A} e.

Definition obind {A B} (o : Outcome A) (f : A -> Outcome B) : Outcome B :=
  match o with
  | Return a => f a
  | Raise e => Raise e
  end.

(** A [for] loop that threads an accumulator and stops at the first
  exception. *)
Fixpoint ofold {A B} (f : B -> A -> Outcome B) (l : list A) (b : B)
  : Outcome B :=
  match l with
  | [] => Return b
  | a :: l' => obind (f b a) (ofold f l')
  end.

End Exc.
Export Exc.

(** ** oauth.py: the authentication broker *)
Module OAuth.

(** [request.query]: the key/value pairs of the query string.  Indexing
  gives the first value of a key. *)
Abbreviation Query := (list (string * string)) (only parsing).

(** An [asyncio.Queue] object, named by its allocation index. *)
Abbreviation QueueId := nat (only parsing).

Inductive AppRunner : Type := mkAppRunner.

Record WebServer : Type := mkWebServer {
    runner : option AppRunner;
    auth_redirs : dict string (string * QueueId)
  }.

(** The broker together with the queues created by its callers: queue [q]
  holds [queues !! q], oldest item first. *)
Record Broker : Type := mkBroker {
    server : WebServer;
    queues : list (list Query)
  }.

Definition url : string := "http://localhost:8080/".

(** [WebServer.__init__]; the class attribute [runner] is [None]. *)
Definition init : WebServer := {| runner := None; auth_redirs := [] |}.

Definition fresh : Broker := {| server := init; queues := [] |}.

(** What a handler sends back.  aiohttp sends a redirect by raising
  [HTTPFound], which is a response. *)
Inductive Response : Type :=
  | HTTPFound (location : string)
  | TextResponse (text : string).

(** [auth_redir] up to its suspension point: a new queue is created and
  stored under [state]; the caller then waits on the queue. *)
Definition auth_redir_register (target state : string) (b : Broker)
  : QueueId * Broker :=
  let queue := length (queues b) in
  (queue,
   {| server := {| runner := runner (server b);
                   auth_redirs :=
                     dict_set state (target, queue) (auth_redirs (server b)) |};
      queues := queues b ++ [[]] |}).

(** [await queue.get()]: [None] while the queue is empty (the caller stays
  suspended), otherwise the oldest item is taken and returned. *)
Definition queue_get (queue : QueueId) (b : Broker) : option (Query * Broker) :=
  match queues b !! queue with
  | Some (item :: rest) =>
      Some (item, {| server := server b;
                     queues := <[queue := rest]> (queues b) |})
  | _ => None
  end.

(** [queue.put_nowait(item)] on an unbounded queue. *)
Definition put_nowait (queue : QueueId) (item : Query)
    (qs : list (list Query)) : list (list Query) :=
  alter (fun items => items ++ [item]) queue qs.

Definition _start (ws : WebServer) : Response :=
  match dict_values (auth_redirs ws) with
  | entry :: _ => HTTPFound entry.1
  | [] => TextResponse "Authentication done"
  end.

Definition _oauth2_msal (query : Query) (b : Broker)
  : Outcome Response * Broker :=
  match dict_get "state" query with
  | None => (Raise KeyError, b)
  | Some state =>
      let b' :=
        match dict_get state (auth_redirs (server b)) with
        | Some (_, queue) =>
            {| server := {| runner := runner (server b);
                            auth_redirs :=
                              dict_del state (auth_redirs (server b)) |};
               queues := put_nowait queue query (queues b) |}
        | None => b
        end in
      (Return
         match dict_values (auth_redirs (server b')) with
         | entry :: _ => HTTPFound entry.1
         | [] => HTTPFound url
         end,
       b')
  end.

(** What reaches the broker: a provider calling [auth_redir], or the
  browser requesting one of the two routes. *)
Inductive Request : Type :=
  | AuthRedir (target state : string)
  | GetRoot
  | GetCallback (query : Query).

Definition handle (b : Broker) (r : Request) : Broker :=
  match r with
  | AuthRedir target state => (auth_redir_register target state b).2
  | GetRoot => b
  | GetCallback query => (_oauth2_msal query b).2
  end.

Definition run (b : Broker) (rs : list Request) : Broker := foldl handle b rs.

(** The queue ids handed out to a batch of [auth_redir] calls made on [b],
  in call order. *)
Definition register_all (regs : list (string * string)) (b : Broker) : Broker :=
  run b ((fun r => AuthRedir r.1 r.2) <$> regs).

Definition deliver_all (callbacks : list Query) (b : Broker) : Broker :=
  run b (GetCallback <$> callbacks).

(** The pending queue ids. *)
Definition pending_queues (b : Broker) : list QueueId :=
  (dict_values (auth_redirs (server b))).*2.

(** The [state] parameter of a callback request, if it has one. *)
Definition state_of (query : Query) : option string := dict_get "state" query.

(** A broker that started empty and served some requests. *)
Definition reachable (b : Broker) : Prop := exists rs, b = run fresh rs.

(** What holds of the broker between any two requests: one entry per state
  token, one queue per entry, and nothing yet delivered to a caller that is
  still pending. *)
Record broker_inv (b : Broker) : Prop := mkInv {
    inv_keys : NoDup (dict_keys (auth_redirs (server b)));
    inv_queues : NoDup (pending_queues b);
    inv_empty : forall q, q ∈ pending_queues b -> queues b !! q = Some []
  }.

End OAuth.

(** ** config.py and main.py: the reconciliation engine *)
Module Main.

(** A mailbox object, by identity. *)
Abbreviation Mailbox := nat (only parsing).

(** The change key under which a snapshot holds a message. *)
Abbreviation ContentHash := string (only parsing).

(** A message object: its identity and the mailbox that owns it. *)
Record Message : Type := mkMessage {
    msg_id : nat;
    mailbox : Mailbox
  }.

#[export] Instance Message_eq_dec : EqDecision Message.
Proof. solve_decision. Defined.

(** [messages.CHMsgDict_Type], [messages.MBoxDict_Type] and
  [messages.CHMsgMappingDict_Type]. *)
Abbreviation CHMsgDict := (dict ContentHash Message) (only parsing).
Abbreviation MBoxDict := (dict Mailbox CHMsgDict) (only parsing).
Abbreviation CHMsgMappingDict :=
  (dict ContentHash (option Message * Message)) (only parsing).

(** A provider session held in [cfg.domains], by identity. *)
Abbreviation Domain := nat (only parsing).

(** [config.Config], the part the engine reads.  [direct_message] is set
  to [_direct_message] by [__init__]; a configuration script may assign
  another policy. *)
Record Config : Type := mkConfig {
    local_mboxes : list Mailbox;
    cloud_mboxes : list Mailbox;
    direct_message_override : option (Message -> Outcome Mailbox)
  }.

Definition all_mboxes (cfg : Config) : list Mailbox :=
  local_mboxes cfg ++ cloud_mboxes cfg.

Definition _direct_message (cfg : Config) (msg : Message) : Outcome Mailbox :=
  match local_mboxes cfg !! 0 with
  | Some mbox => Return mbox
  | None => Raise IndexError
  end.

Definition direct_message (cfg : Config) (msg : Message) : Outcome Mailbox :=
  match direct_message_override cfg with
  | Some policy => policy msg
  | None => _direct_message cfg msg
  end.

(** What the engine shares with the code it calls: the state of the
  mailboxes, the message store, the change signal and the network, kept
  abstract, and [cfg.domains], which the providers fill and the engine
  empties. *)
Record Shared (World : Type) : Type := mkShared {
    world : World;
    domains : dict string Domain
  }.
Arguments mkShared {World} _ _.
Arguments world {World} _.
Arguments domains {World} _.

(** An operation of a collaborator: it returns or raises, and may change
  the shared state. *)
Definition Op (World : Type) : Type :=
  Shared World -> Outcome unit * Shared World.

(** The collaborators whose code is not in the three files, as parameters:
    the mailbox classes ([messages], [need_update], [same_messages] with and
    without [tuple_form], [setup_mbox], [update_message_list],
    [force_content], [merge_content]), the change signal of [Mailbox], the
    message store, the provider sessions of [cfg.domains], aiohttp's runner
    and site, and the event loop's timer.  Reading a snapshot or a flag and
    comparing have no effect; clearing the signal and sleeping cannot raise;
    every other operation may raise and may change the shared state. *)
Class External (World : Type) : Type := {
    messages : Mailbox -> Shared World -> CHMsgDict;
    need_update : Mailbox -> Shared World -> bool;
    same_messages : Mailbox -> Shared World -> CHMsgDict -> bool;
    same_messages_tuple : Mailbox -> Shared World -> CHMsgMappingDict -> bool;
    setup_mbox : Mailbox -> Op World;
    update_message_list : Mailbox -> Op World;
    force_content : Mailbox -> CHMsgDict -> Op World;
    merge_content : Mailbox -> CHMsgMappingDict -> Op World;
    changed_event_wait : Op World;
    changed_event_clear : Shared World -> Shared World;
    cleanup_msgs : MBoxDict -> Op World;
    domain_close : Domain -> Op World;
    runner_setup : Op World;
    site_start : Op World;
    runner_cleanup : Op World;
    asyncio_sleep : nat -> Shared World -> Shared World
  }.

(** The calls that leave the engine, in the order they are made. *)
Inductive Event : Type :=
  | EvRunnerSetup
  | EvSiteStart
  | EvRunnerCleanup
  | EvSetupMbox (mbox : Mailbox)
  | EvUpdateMessageList (mbox : Mailbox)
  | EvSameMessages (mbox : Mailbox) (msgdict : CHMsgDict) (same : bool)
  | EvForceContent (mbox : Mailbox) (msgdict : CHMsgDict)
  | EvSameMessagesTuple (mbox : Mailbox) (msgdict : CHMsgMappingDict) (same : bool)
  | EvMergeContent (mbox : Mailbox) (msgdict : CHMsgMappingDict)
  | EvLogException (text : string)
  | EvSleep (delay : nat)
  | EvWait
  | EvClear
  | EvCleanupMsgs (msgs : MBoxDict)
  | EvLogDebug (text : string)
  | EvDomainClose (domain : Domain).

#[export] Instance Event_eq_dec : EqDecision Event.
Proof. solve_decision. Defined.

Record State (World : Type) : Type := mkState {
    shared : Shared World;
    web_app : OAuth.WebServer
  }.
Arguments mkState {World} _ _.
Arguments shared {World} _.
Arguments web_app {World} _.

(** How the [while True] loop stands after some number of iterations. *)
Inductive LoopResult : Type :=
  | Exited (e : ExcClass)
  | StillRunning.

(** One run of [synchronize_mail]: the events before the loop, the events
  of each iteration of the loop, and the events of the [finally] block. *)
Record Run (World : Type) : Type := mkRun {
    result : LoopResult;
    final : State World;
    setup_events : list Event;
    cycles : list (list Event);
    teardown_events : list Event
  }.
Arguments mkRun {World} _ _ _ _ _.
Arguments result {World} _.
Arguments final {World} _.
Arguments setup_events {World} _.
Arguments cycles {World} _.
Arguments teardown_events {World} _.

(** How the [try] block of [synchronize_mail] stands: the loop's result, the
  state reached, the events before the loop and those of each iteration. *)
Record Tried (World : Type) : Type := mkTried {
    tried_result : LoopResult;
    tried_state : State World;
    tried_setup : list Event;
    tried_cycles : list (list Event)
  }.
Arguments mkTried {World} _ _ _ _.
Arguments tried_result {World} _.
Arguments tried_state {World} _.
Arguments tried_setup {World} _.
Arguments tried_cycles {World} _.

Section Engine.
Context {World : Type} `{External World}.

(** Engine code: it returns or raises, changes the state, and makes
  calls. *)
Definition M (A : Type) : Type :=
  State World -> Outcome A * State World * list Event.

Definition ret {A} (a : A) : M A := fun st => (Return a, st, []).

Definition bind {A B} (m : M A) (f : A -> M B) : M B := fun st =>
  match m st with
  | (Return a, st1, evs1) =>
      let '(o, st2, evs2) := f a st1 in (o, st2, evs1 ++ evs2)
  | (Raise e, st1, evs1) => (Raise e, st1, evs1)
  end.

Definition lift {A} (o : Outcome A) : M A := fun st => (o, st, []).

Declare Scope engine_scope.
Delimit Scope engine_scope with engine.
Notation "x <- m ;; k" := (bind m (fun x => k))
  (at level 100, m at next level, k at level 200, right associativity,
   only parsing) : engine_scope.
Notation "m ;; k" := (bind m (fun _ => k))
  (at level 100, k at level 200, right associativity,
   only parsing) : engine_scope.
Local Open Scope engine_scope.

(** A call to a collaborator. *)
Definition call (ev : Event) (op : Op World) : M unit := fun st =>
  let '(o, sh) := op (shared st) in
  (o, {| shared := sh; web_app := web_app st |}, [ev]).

(** A call that cannot raise. *)
Definition call_total (ev : Event) (op : Shared World -> Shared World)
  : M unit := fun st =>
  (Return tt, {| shared := op (shared st); web_app := web_app st |}, [ev]).

(** [for x in l: body(x)] *)
Fixpoint for_each {A} (body : A -> M unit) (l : list A) : M unit :=
  match l with
  | [] => ret tt
  | a :: l' => body a ;; for_each body l'
  end.

(** [await asyncio.gather] of a list of tasks: every task is started, in argument
  order; each awaited operation is one transition of the shared state.
  The first exception is raised in the caller and the other tasks are
  not cancelled. *)
Fixpoint gather (tasks : list (M unit)) : M unit :=
  match tasks with
  | [] => ret tt
  | task :: tasks' => fun st =>
      let '(o1, st1, evs1) := task st in
      let '(o2, st2, evs2) := gather tasks' st1 in
      (match o1 with Raise e => Raise e | Return _ => o2 end,
       st2, evs1 ++ evs2)
  end.

(** *** main.py *)

Definition route_message (cfg : Config) (msgs : MBoxDict)
    (item : ContentHash * Message) : Outcome MBoxDict :=
  let '(ch, msg) := item in
  obind (direct_message cfg msg) (fun dest =>
    match dict_get dest msgs with
    | Some msgdict => Return (dict_set dest (dict_set ch msg msgdict) msgs)
    | None => Raise KeyError
    end).

(** The two nested loops of [force_local_to_cloud] that fill [msgs]. *)
Definition route (cfg : Config) (sh : Shared World) : Outcome MBoxDict :=
  ofold (fun msgs mbox =>
           ofold (route_message cfg) (dict_items (messages mbox sh)) msgs)
        (cloud_mboxes cfg)
        (dict_fromkeys (local_mboxes cfg) []).

Definition force_if_differs (entry : Mailbox * CHMsgDict) : M unit :=
  let '(mbox, msgdict) := entry in fun st =>
  let same := same_messages mbox (shared st) msgdict in
  let '(o, st1, evs) :=
    (if same then ret tt
     else call (EvForceContent mbox msgdict) (force_content mbox msgdict)) st in
  (o, st1, EvSameMessages mbox msgdict same :: evs).

Definition force_local_to_cloud (cfg : Config) : M MBoxDict := fun st =>
  (msgs <- lift (route cfg (shared st)) ;;
   for_each force_if_differs (dict_items msgs) ;;
   ret msgs) st.

Definition group_message (sh : Shared World) (local_mbox : Mailbox)
    (msgs_by_cloud : dict Mailbox CHMsgMappingDict)
    (item : ContentHash * Message)
  : Outcome (dict Mailbox CHMsgMappingDict) :=
  let '(ch, cloud_msg) := item in
  match dict_get (mailbox cloud_msg) msgs_by_cloud with
  | Some msgdict =>
      Return (dict_set (mailbox cloud_msg)
                (dict_set ch (dict_get ch (messages local_mbox sh), cloud_msg)
                   msgdict)
                msgs_by_cloud)
  | None => Raise KeyError
  end.

(** The loops of [update_cloud_from_local] that fill [msgs_by_cloud]. *)
Definition group_by_cloud (cfg : Config) (sh : Shared World)
    (msgs_by_local : MBoxDict) : Outcome (dict Mailbox CHMsgMappingDict) :=
  ofold (fun acc entry =>
           ofold (group_message sh entry.1) (dict_items entry.2) acc)
        (dict_items msgs_by_local)
        (dict_fromkeys (cloud_mboxes cfg) []).

(** The generator passed to [gather] is exhausted before any merge runs:
  all comparisons are made on the state the function was entered
  with. *)
Definition update_cloud_from_local (cfg : Config) (msgs_by_local : MBoxDict)
  : M unit := fun st =>
  match group_by_cloud cfg (shared st) msgs_by_local with
  | Raise e => (Raise e, st, [])
  | Return msgs_by_cloud =>
      let compared :=
        (fun entry =>
           (entry, same_messages_tuple entry.1 (shared st) entry.2))
        <$> dict_items msgs_by_cloud in
      let tasks :=
        (fun c => call (EvMergeContent c.1.1 c.1.2)
                    (merge_content c.1.1 c.1.2))
        <$> List.filter (fun c => negb c.2) compared in
      let '(o, st1, evs) := gather tasks st in
      (o, st1,
       ((fun c => EvSameMessagesTuple c.1.1 c.1.2 c.2) <$> compared) ++ evs)
  end.

(** The first statement of the [try] in the loop. *)
Definition refresh (cfg : Config) : M unit := fun st =>
  gather ((fun mbox => call (EvUpdateMessageList mbox)
                         (update_message_list mbox))
          <$> List.filter (fun mbox => need_update mbox (shared st))
                (all_mboxes cfg)) st.

(** The body of the [try] in the loop. *)
Definition cycle_body (cfg : Config) (msgs : option MBoxDict) : M MBoxDict :=
  refresh cfg ;;
  match msgs with
  | Some prev => update_cloud_from_local cfg prev
  | None => ret tt
  end ;;
  force_local_to_cloud cfg.

(** The exceptions named by the [except] clause of the loop. *)
Definition retry_clause : list ExcClass :=
  [FileNotFoundError; AsyncioTimeoutError; ClientError; IOError;
   RuntimeError].

(** The statements after the [try] in the loop. *)
Definition wait_for_change (msgs : MBoxDict) : M unit :=
  call EvWait changed_event_wait ;;
  call_total EvClear changed_event_clear ;;
  call (EvCleanupMsgs msgs) (cleanup_msgs msgs) ;;
  call_total (EvLogDebug "Changed event, looping") id.

(** The [except] block. *)
Definition retry_later : M unit :=
  call_total (EvLogException "Failed update cycle, sleeping then retrying") id ;;
  call_total (EvSleep 10) (asyncio_sleep 10).

(** How one iteration of [while True] ends: with the value of [msgs] for
  the next one, or with an exception that leaves the loop. *)
Inductive Step : Type :=
  | Continue (msgs : option MBoxDict)
  | Stop (e : ExcClass).

Definition iteration (cfg : Config) (msgs : option MBoxDict)
    (st : State World) : Step * State World * list Event :=
  match cycle_body cfg msgs st with
  | (Raise e, st1, evs1) =>
      if except_matches retry_clause e then
        match retry_later st1 with
        | (Return _, st2, evs2) => (Continue msgs, st2, evs1 ++ evs2)
        | (Raise e', st2, evs2) => (Stop e', st2, evs1 ++ evs2)
        end
      else (Stop e, st1, evs1)
  | (Return msgs', st1, evs1) =>
      match wait_for_change msgs' st1 with
      | (Return _, st2, evs2) => (Continue (Some msgs'), st2, evs1 ++ evs2)
      | (Raise e, st2, evs2) => (Stop e, st2, evs1 ++ evs2)
      end
  end.

(** [while True:], cut after [fuel] iterations. *)
Fixpoint main_loop (cfg : Config) (fuel : nat) (msgs : option MBoxDict)
    (st : State World) : LoopResult * State World * list (list Event) :=
  match fuel with
  | 0 => (StillRunning, st, [])
  | S fuel' =>
      match iteration cfg msgs st with
      | (Stop e, st1, evs) => (Exited e, st1, [evs])
      | (Continue msgs', st1, evs) =>
          let '(r, st2, rest) := main_loop cfg fuel' msgs' st1 in
          (r, st2, evs :: rest)
      end
  end.

(** [WebServer.go] and [WebServer.close] of oauth.py. *)
Definition go : M unit := fun st =>
  (call EvRunnerSetup runner_setup ;;
   call EvSiteStart site_start)
    {| shared := shared st;
       web_app := {| OAuth.runner := Some OAuth.mkAppRunner;
                     OAuth.auth_redirs := OAuth.auth_redirs (web_app st) |} |}.

Definition close : M unit := fun st =>
  match OAuth.runner (web_app st) with
  | Some _ => call EvRunnerCleanup runner_cleanup st
  | None => ret tt st
  end.

(** The statements of the [try] before the loop. *)
Definition startup (cfg : Config) : M unit :=
  go ;;
  gather ((fun mbox => call (EvSetupMbox mbox) (setup_mbox mbox))
          <$> all_mboxes cfg).

(** The first statement of the [finally] block. *)
Definition close_domains : M unit := fun st =>
  gather ((fun domain => call (EvDomainClose domain) (domain_close domain))
          <$> dict_values (domains (shared st))) st.

Definition clear_domains : M unit := fun st =>
  (Return tt,
   {| shared := {| world := world (shared st); domains := [] |};
      web_app := web_app st |},
   []).

Definition teardown : M unit :=
  close_domains ;; clear_domains ;; close.

(** The [try] block, cut after [fuel] iterations of its loop. *)
Definition try_block (cfg : Config) (fuel : nat) (st : State World)
  : Tried World :=
  match startup cfg st with
  | (Raise e, st1, evs) =>
      {| tried_result := Exited e; tried_state := st1;
         tried_setup := evs; tried_cycles := [] |}
  | (Return _, st1, evs) =>
      let '(r, st2, cs) := main_loop cfg fuel None st1 in
      {| tried_result := r; tried_state := st2;
         tried_setup := evs; tried_cycles := cs |}
  end.

(** [cfg.web_app = oauth.WebServer()], the statement before the [try]. *)
Definition new_web_app (st : State World) : State World :=
  {| shared := shared st; web_app := OAuth.init |}.

Definition synchronize_mail (cfg : Config) (fuel : nat) (st : State World)
  : Run World :=
  let tried := try_block cfg fuel (new_web_app st) in
  match tried_result tried with
  | StillRunning =>
      {| result := StillRunning; final := tried_state tried;
         setup_events := tried_setup tried; cycles := tried_cycles tried;
         teardown_events := [] |}
  | Exited e =>
      let '(o, st2, tevs) := teardown (tried_state tried) in
      {| result := Exited (match o with Raise e' => e' | Return _ => e end);
         final := st2; setup_events := tried_setup tried;
         cycles := tried_cycles tried; teardown_events := tevs |}
  end.

(** *** The shape of the events of a step *)


(** The snapshots of a routing result have one entry per key. *)
Definition targets_wf (msgs : MBoxDict) : Prop :=
  NoDup (dict_keys msgs) /\
  forall dest target, dict_get dest msgs = Some target -> NoDup (dict_keys target).

(** What the last loop of [force_local_to_cloud] can emit over [items]: for
  each entry a comparison, followed by a force call when it reported a
  difference; the loop may stop early. *)
Inductive force_trace : list (Mailbox * CHMsgDict) -> list Event -> Prop :=
| force_stop items : force_trace items []
| force_skip mbox d items evs :
    force_trace items evs ->
    force_trace ((mbox, d) :: items) (EvSameMessages mbox d true :: evs)
| force_call mbox d items evs :
    force_trace items evs ->
    force_trace ((mbox, d) :: items)
      (EvSameMessages mbox d false :: EvForceContent mbox d :: evs).

(** What [update_cloud_from_local] emits: the comparisons, one per cloud
  mailbox, then a merge call for each that reported a difference. *)
Definition merge_trace (evs : list Event) : Prop :=
  exists compared : list (Mailbox * CHMsgMappingDict * bool),
    NoDup compared.*1.*1 /\
    evs = ((fun c => EvSameMessagesTuple c.1.1 c.1.2 c.2) <$> compared) ++
          ((fun c => EvMergeContent c.1.1 c.1.2)
           <$> List.filter (fun c => negb c.2) compared).

(** *** Reading the events of an iteration *)

Definition is_refresh_step (ev : Event) : bool :=
  match ev with EvUpdateMessageList _ => true | _ => false end.

Definition is_merge_step (ev : Event) : bool :=
  match ev with
  | EvSameMessagesTuple _ _ _ | EvMergeContent _ _ => true
  | _ => false
  end.

Definition is_route_step (ev : Event) : bool :=
  match ev with
  | EvSameMessages _ _ _ | EvForceContent _ _ => true
  | _ => false
  end.

Definition is_wait_step (ev : Event) : bool :=
  match ev with
  | EvLogException _ | EvSleep _ | EvWait | EvClear | EvCleanupMsgs _
  | EvLogDebug _ => true
  | _ => false
  end.

Definition is_force_content (ev : Event) : bool :=
  match ev with EvForceContent _ _ => true | _ => false end.

Definition is_merge_content (ev : Event) : bool :=
  match ev with EvMergeContent _ _ => true | _ => false end.

(** [evs] is a run of events of the first step, followed by a run of events
  of the second step, and so on. *)
Fixpoint in_steps (steps : list (Event -> bool)) (evs : list Event) : Prop :=
  match steps with
  | [] => evs = []
  | step :: steps' =>
      exists now later,
        evs = now ++ later /\ forallb step now = true /\ in_steps steps' later
  end.

(** Every event of the first kind comes before every event of the second. *)
Definition calls_precede (first second : Event -> bool) (evs : list Event)
  : Prop :=
  forall i j a b,
    evs !! i = Some a -> evs !! j = Some b ->
    first a = true -> second b = true -> i < j.

(** The order of the steps in the body of the loop. *)
Definition cycle_order : list (Event -> bool) :=
  [is_refresh_step; is_merge_step; is_route_step; is_wait_step].

(** The order of the steps as the specification lists them. *)
Definition stated_cycle_order : list (Event -> bool) :=
  [is_refresh_step; is_route_step; is_merge_step; is_wait_step].


(** [msgs] has exactly one target snapshot for [dest], and that snapshot has
  exactly one entry under [ch], whose record is [msg]. *)
Definition routed_to (msgs : MBoxDict) (dest : Mailbox) (ch : ContentHash)
    (msg : Message) : Prop :=
  exists target,
    filter (fun entry => entry.1 = dest) msgs = [(dest, target)] /\
    filter (fun entry => entry.1 = ch) target = [(ch, msg)].

(** Routing completeness as the specification states it. *)
Definition routing_complete (cfg : Config) (st : State World) : Prop :=
  forall msgs st' evs,
    force_local_to_cloud cfg st = (Return msgs, st', evs) ->
    forall mbox ch msg,
      mbox ∈ cloud_mboxes cfg ->
      (ch, msg) ∈ dict_items (messages mbox (shared st)) ->
      exists dest, direct_message cfg msg = Return dest /\
                   routed_to msgs dest ch msg.

(** The state after the [except] block ran in [st]. *)
Definition after_retry (st : State World) : State World :=
  {| shared := asyncio_sleep 10 (shared st); web_app := web_app st |}.

(** When the body of the loop raises, the iteration ends in the [except]
  block for the exceptions of [clause], and leaves the loop for all
  others. *)
Definition retries_exactly (clause : list ExcClass) (cfg : Config)
    (msgs : option MBoxDict) (st : State World) : Prop :=
  forall e st1 evs,
    cycle_body cfg msgs st = (Raise e, st1, evs) ->
    if except_matches clause e then
      iteration cfg msgs st =
      (Continue msgs, after_retry st1,
       evs ++ [EvLogException "Failed update cycle, sleeping then retrying";
               EvSleep 10])
    else iteration cfg msgs st = (Stop e, st1, evs).

(** The transient error kinds as the specification lists them: connection
  failures, request timeouts, generic I/O errors and file-not-found. *)
Definition stated_transient : list ExcClass :=
  [ClientError; AsyncioTimeoutError; IOError; FileNotFoundError].


End Engine.

End Main.

(** ** Scenarios

    Small configurations on which the engine and the broker are run. *)
Module Scenarios.
Import OAuth.

(** Two logins are pending, registered in the order [s1], [s2]. *)
Definition two_logins : list Request :=
  [AuthRedir "https://login.example/a" "s1";
   AuthRedir "https://login.example/b" "s2"].

Definition two_pending : Broker := run fresh two_logins.

Definition callback_s1 : Query := [("code", "A"); ("state", "s1")].
Definition callback_s2 : Query := [("state", "s2"); ("code", "B")].

Import Main.

(** A provider that answers every call the same way and never changes. *)
Record Script : Type := mkScript {
  snapshot : Mailbox -> CHMsgDict;
  dirty : Mailbox -> bool;
  same : bool;
  setup_outcome : Outcome unit;
  force_outcome : Outcome unit;
  merge_outcome : Outcome unit;
  close_outcome : Outcome unit
}.

Definition scripted (s : Script) : External unit := {|
  messages mbox _ := snapshot s mbox;
  need_update mbox _ := dirty s mbox;
  same_messages _ _ _ := same s;
  same_messages_tuple _ _ _ := same s;
  setup_mbox _ sh := (setup_outcome s, sh);
  update_message_list _ sh := (Return tt, sh);
  force_content _ _ sh := (force_outcome s, sh);
  merge_content _ _ sh := (merge_outcome s, sh);
  changed_event_wait sh := (Return tt, sh);
  changed_event_clear sh := sh;
  cleanup_msgs _ sh := (Return tt, sh);
  domain_close _ sh := (close_outcome s, sh);
  runner_setup sh := (Return tt, sh);
  site_start sh := (Return tt, sh);
  runner_cleanup sh := (Return tt, sh);
  asyncio_sleep _ sh := sh
|}.

(** One maildir, mailbox 0, and cloud mailboxes 1 and 2. *)
Definition m1 : Message := {| msg_id := 1; mailbox := 1 |}.
Definition m2 : Message := {| msg_id := 2; mailbox := 1 |}.
Definition m3 : Message := {| msg_id := 3; mailbox := 2 |}.

Definition one_cloud : Config :=
  {| local_mboxes := [0]; cloud_mboxes := [1];
     direct_message_override := None |}.

Definition two_clouds : Config :=
  {| local_mboxes := [0]; cloud_mboxes := [1; 2];
     direct_message_override := None |}.

Definition no_maildir : Config :=
  {| local_mboxes := []; cloud_mboxes := [1];
     direct_message_override := None |}.

(** Mailbox 1 holds [m1] and [m2]; the maildir is empty and dirty; every
    comparison reports a difference and every call returns. *)
Definition inbox : Script :=
  {| snapshot mbox := if decide (mbox = 1) then [("k1", m1); ("k2", m2)] else [];
     dirty mbox := bool_decide (mbox = 0);
     same := false;
     setup_outcome := Return tt;
     force_outcome := Return tt;
     merge_outcome := Return tt;
     close_outcome := Return tt |}.

(** As [inbox], but the same message sits in both cloud mailboxes, under
    the same content hash. *)
Definition shared_hash : Script :=
  {| snapshot mbox :=
       if decide (mbox = 1) then [("k1", m1)]
       else if decide (mbox = 2) then [("k1", m3)] else [];
     dirty mbox := false;
     same := false;
     setup_outcome := Return tt;
     force_outcome := Return tt;
     merge_outcome := Return tt;
     close_outcome := Return tt |}.

(** As [inbox], but writing the maildir fails with a [RuntimeError]. *)
Definition maildir_fails : Script :=
  {| snapshot := snapshot inbox; dirty := dirty inbox; same := false;
     setup_outcome := Return tt;
     force_outcome := Raise RuntimeError;
     merge_outcome := Return tt;
     close_outcome := Return tt |}.



(** One provider session is open. *)
Definition start : State unit :=
  {| shared := {| world := tt; domains := [("o365", 7)] |};
     web_app := OAuth.init |}.

End Scenarios.
From Stdlib Require Import Sorted.

(** ** Reading more of the events *)
Module MainTrace.
Import Main.

(** The mailbox of a comparison of [update_cloud_from_local]. *)
Definition compared_mailbox (ev : Event) : option Mailbox :=
  match ev with
  | EvSameMessagesTuple mbox _ _ => Some mbox
  | _ => None
  end.

End MainTrace.

(** ** config.py: the declarations of a configuration script

    A configuration script builds the configuration by calling [MailDir],
    [Office365] and [Office365_Account].  The mailbox classes themselves are
    outside this code: an object is recorded by the arguments its
    constructor was called with, and is identified by the place it took in
    the store of objects when it was made. *)
Module ConfigScript.
Import Main.

Inductive MailboxObject : Type :=
  | O365Mailbox (mailbox : string) (user : option string) (tenant : string)
  | MailDirMailbox (directory : string).

(** The configuration being built and the objects made so far. *)
Record Loading : Type := mkLoading {
    cfg : Config;
    objects : list MailboxObject
  }.

(** [Config.__init__]. *)
Definition init : Loading :=
  {| cfg := {| local_mboxes := []; cloud_mboxes := [];
               direct_message_override := None |};
     objects := [] |}.

(** [l[-1]] *)
Definition last_item (l : list Mailbox) : Outcome Mailbox :=
  match last l with
  | Some mbox => Return mbox
  | None => Raise IndexError
  end.

Definition Office365_Account (user : option string) (tenant : string)
  : option string * string :=
  (user, tenant).

Definition Office365 (mailbox : string) (account : option string * string)
    (s : Loading) : Outcome Mailbox * Loading :=
  let new := length (objects s) in
  let cloud := cloud_mboxes (cfg s) ++ [new] in
  (last_item cloud,
   {| cfg := {| local_mboxes := local_mboxes (cfg s);
                cloud_mboxes := cloud;
                direct_message_override := direct_message_override (cfg s) |};
      objects := objects s ++ [O365Mailbox mailbox account.1 account.2] |}).

Definition MailDir (directory : string) (s : Loading)
  : Outcome Mailbox * Loading :=
  let new := length (objects s) in
  let local := local_mboxes (cfg s) ++ [new] in
  (last_item local,
   {| cfg := {| local_mboxes := local;
                cloud_mboxes := cloud_mboxes (cfg s);
                direct_message_override := direct_message_override (cfg s) |};
      objects := objects s ++ [MailDirMailbox directory] |}).

(** One call of a configuration script. *)
Inductive Declaration : Type :=
  | DeclareMailDir (directory : string)
  | DeclareOffice365 (mailbox : string) (account : option string * string).

Definition declare (d : Declaration) (s : Loading)
  : Outcome Mailbox * Loading :=
  match d with
  | DeclareMailDir directory => MailDir directory s
  | DeclareOffice365 mailbox account => Office365 mailbox account s
  end.

(** A script that only declares mailboxes, run statement by statement. *)
Definition declare_all (ds : list Declaration) (s : Loading) : Loading :=
  foldl (fun s d => (declare d s).2) s ds.

(** The object a declaration makes. *)
Definition object_of (d : Declaration) : MailboxObject :=
  match d with
  | DeclareMailDir directory => MailDirMailbox directory
  | DeclareOffice365 mailbox account =>
      O365Mailbox mailbox account.1 account.2
  end.

(** What holds of the configuration after the declarations [ds], run on a
    new [Config]. *)
Record loaded (ds : list Declaration) (s : Loading) : Prop := {
  loaded_objects : objects s = object_of <$> ds;
  loaded_local : forall mbox,
    mbox ∈ local_mboxes (cfg s) <->
    exists directory, ds !! mbox = Some (DeclareMailDir directory);
  loaded_cloud : forall mbox,
    mbox ∈ cloud_mboxes (cfg s) <->
    exists name account, ds !! mbox = Some (DeclareOffice365 name account);
  loaded_local_order : StronglySorted lt (local_mboxes (cfg s));
  loaded_cloud_order : StronglySorted lt (cloud_mboxes (cfg s));
  loaded_policy : direct_message_override (cfg s) = None
}.

End ConfigScript.

(** ** Further scenarios *)
Module MoreScenarios.
Import Main Scenarios.

(** As [inbox], but no mailbox is dirty and every comparison reports
    equality. *)
Definition quiet : Script :=
  {| snapshot := snapshot inbox; dirty := fun _ => false; same := true;
     setup_outcome := Return tt;
     force_outcome := Return tt;
     merge_outcome := Return tt;
     close_outcome := Return tt |}.

(** As [inbox], but the message store fails with an [IOError] when it is
    asked to clean up. *)
Definition cleanup_fails : External unit := {|
  messages mbox _ := snapshot inbox mbox;
  need_update mbox _ := dirty inbox mbox;
  same_messages _ _ _ := false;
  same_messages_tuple _ _ _ := false;
  setup_mbox _ sh := (Return tt, sh);
  update_message_list _ sh := (Return tt, sh);
  force_content _ _ sh := (Return tt, sh);
  merge_content _ _ sh := (Return tt, sh);
  changed_event_wait sh := (Return tt, sh);
  changed_event_clear sh := sh;
  cleanup_msgs _ sh := (Raise IOError, sh);
  domain_close _ sh := (Return tt, sh);
  runner_setup sh := (Return tt, sh);
  site_start sh := (Return tt, sh);
  runner_cleanup sh := (Return tt, sh);
  asyncio_sleep _ sh := sh
|}.

(** Two maildirs, mailboxes 0 and 3, and cloud mailbox 1. *)
Definition two_maildirs : Config :=
  {| local_mboxes := [0; 3]; cloud_mboxes := [1];
     direct_message_override := None |}.

(** One maildir and a cloud mailbox that holds nothing. *)
Definition empty_cloud : Config :=
  {| local_mboxes := [0]; cloud_mboxes := [2];
     direct_message_override := None |}.

(** A policy that sends every message to mailbox 5, which is not
    configured. *)
Definition misrouting : Config :=
  {| local_mboxes := [0]; cloud_mboxes := [1];
     direct_message_override := Some (fun _ => Return 5) |}.

(** What routing gives on [inbox]. *)
Definition routed : MBoxDict := [(0, [("k1", m1); ("k2", m2)])].

(** What [update_cloud_from_local] makes of [routed] while the maildir is
    empty. *)
Definition paired : CHMsgMappingDict :=
  [("k1", (None, m1)); ("k2", (None, m2))].

(** A routing result that holds a message of mailbox 2. *)
Definition foreign : MBoxDict := [(0, [("k9", m3)])].

End MoreScenarios.


(** * Properties *)

(** ** Dictionaries *)
Module PyDictFacts.
Section Facts.
Context {K V : Type} `{EqDecision K}.
Implicit Types (k : K) (v : V) (d : dict K V).

Lemma dict_get_set_eq k v d : dict_get k (dict_set k v d) = Some v.
Proof.
  induction d as [|[k' v'] d IH]; simpl.
  - by rewrite decide_True.
  - destruct (decide (k = k')) as [->|Hne]; simpl.
    + by rewrite decide_True.
    + by rewrite decide_False.
Qed.

Lemma dict_get_set_ne k k' v d :
  k ≠ k' -> dict_get k' (dict_set k v d) = dict_get k' d.
Proof.
  intros Hne. induction d as [|[k0 v0] d IH]; simpl.
  - by rewrite decide_False.
  - destruct (decide (k = k0)) as [->|Hne0]; simpl.
    + by rewrite !decide_False.
    + destruct (decide (k' = k0)); [done | apply IH].
Qed.

Lemma dict_get_None k d : dict_get k d = None <-> k ∉ dict_keys d.
Proof.
  unfold dict_keys. induction d as [|[k' v'] d IH]; simpl.
  - split; [intros _; apply not_elem_of_nil | done].
  - rewrite not_elem_of_cons. destruct (decide (k = k')) as [->|Hne].
    + split; [done | intros [? _]; done].
    + rewrite IH. tauto.
Qed.

Lemma dict_get_Some_elem k v d : dict_get k d = Some v -> (k, v) ∈ d.
Proof.
  induction d as [|[k' v'] d IH]; simpl; [done|].
  destruct (decide (k = k')) as [->|Hne].
  - intros [= ->]. apply list_elem_of_here.
  - intros Hget. apply list_elem_of_further, IH, Hget.
Qed.

Lemma dict_get_is_Some k d : is_Some (dict_get k d) <-> k ∈ dict_keys d.
Proof.
  destruct (dict_get k d) as [v|] eqn:Hget.
  - split; [intros _ | eauto].
    apply dict_get_Some_elem in Hget.
    unfold dict_keys. apply list_elem_of_fmap. by exists (k, v).
  - apply dict_get_None in Hget. split; [by intros [? ?] | done].
Qed.


Lemma dict_keys_set k v d :
  dict_keys (dict_set k v d) =
  match dict_get k d with
  | Some _ => dict_keys d
  | None => dict_keys d ++ [k]
  end.
Proof.
  unfold dict_keys. induction d as [|[k' v'] d IH]; simpl; [done|].
  destruct (decide (k = k')) as [->|Hne]; simpl; [done|].
  fold (fmap (M:=list) (@fst K V)). rewrite IH. by destruct (dict_get k d).
Qed.

Lemma dict_set_NoDup k v d :
  NoDup (dict_keys d) -> NoDup (dict_keys (dict_set k v d)).
Proof.
  intros Hnd. rewrite dict_keys_set.
  destruct (dict_get k d) eqn:Hget; [done|].
  apply NoDup_app. split_and!; [done | | apply NoDup_singleton].
  intros x Hx Hx'. apply list_elem_of_singleton in Hx' as ->.
  by apply dict_get_None in Hget.
Qed.

Lemma dict_set_elem_keys k k' v d :
  k' ∈ dict_keys (dict_set k v d) <-> k' = k \/ k' ∈ dict_keys d.
Proof.
  rewrite dict_keys_set. destruct (dict_get k d) eqn:Hget.
  - split; [tauto|]. intros [->|Hin]; [|done].
    apply dict_get_is_Some. by rewrite Hget.
  - rewrite elem_of_app, list_elem_of_singleton. tauto.
Qed.

Lemma dict_get_del_ne k k' d :
  k ≠ k' -> dict_get k' (dict_del k d) = dict_get k' d.
Proof.
  intros Hne. induction d as [|[k0 v0] d IH]; simpl; [done|].
  destruct (decide (k = k0)) as [->|Hne0]; simpl.
  - by rewrite decide_False.
  - destruct (decide (k' = k0)); [done | apply IH].
Qed.

Lemma dict_del_sublist k d : sublist (dict_del k d) d.
Proof.
  induction d as [|[k0 v0] d IH]; simpl; [done|].
  destruct (decide (k = k0)).
  - by apply sublist_cons.
  - by apply sublist_skip.
Qed.

Lemma dict_del_NoDup k d :
  NoDup (dict_keys d) -> NoDup (dict_keys (dict_del k d)).
Proof.
  unfold dict_keys. intros Hnd.
  eapply sublist_NoDup; [exact Hnd|].
  apply fmap_sublist, dict_del_sublist.
Qed.

Lemma dict_get_del_eq k d :
  NoDup (dict_keys d) -> dict_get k (dict_del k d) = None.
Proof.
  unfold dict_keys. induction d as [|[k0 v0] d IH]; simpl; [done|].
  intros Hnd. apply NoDup_cons in Hnd as [Hnotin Hnd].
  destruct (decide (k = k0)) as [->|Hne]; simpl.
  - by apply dict_get_None.
  - rewrite decide_False by done. by apply IH.
Qed.


(** Where the entry of a key sits, and what assignment and deletion do
  to the list around it. *)
Lemma dict_get_split k v d :
  dict_get k d = Some v ->
  exists d1 d2,
    d = d1 ++ (k, v) :: d2 /\ (k ∉ dict_keys d1) /\
    dict_del k d = d1 ++ d2 /\
    forall v', dict_set k v' d = d1 ++ (k, v') :: d2.
Proof.
  unfold dict_keys. induction d as [|[k0 v0] d IH]; simpl; [done|].
  destruct (decide (k = k0)) as [->|Hne].
  - intros [= ->]. exists [], d. split_and!; try done. apply not_elem_of_nil.
  - intros Hget. destruct (IH Hget) as (d1 & d2 & -> & Hnotin & Hdel & Hset).
    exists ((k0, v0) :: d1), d2. split_and!; simpl.
    + done.
    + apply not_elem_of_cons. done.
    + by rewrite Hdel.
    + intros v'. by rewrite Hset.
Qed.

Lemma dict_set_absent k v d :
  dict_get k d = None -> dict_set k v d = d ++ [(k, v)].
Proof.
  induction d as [|[k0 v0] d IH]; simpl; [done|].
  destruct (decide (k = k0)); [done|]. intros Hget. by rewrite IH.
Qed.

Lemma dict_values_del_sublist k d :
  sublist (dict_values (dict_del k d)) (dict_values d).
Proof. apply fmap_sublist, dict_del_sublist. Qed.

Lemma dict_fromkeys_keys_acc (ks : list K) v0 d :
  NoDup (dict_keys d) ->
  let d' := foldl (fun d k => dict_set k v0 d) d ks in
  NoDup (dict_keys d') /\
  (forall k, k ∈ dict_keys d' <-> k ∈ dict_keys d \/ k ∈ ks).
Proof.
  revert d. induction ks as [|k0 ks IH]; intros d Hnd; simpl.
  - split; [done|]. intros k. rewrite elem_of_nil. tauto.
  - destruct (IH (dict_set k0 v0 d)) as [Hnd' Hkeys].
    { by apply dict_set_NoDup. }
    split; [done|]. intros k. rewrite Hkeys, dict_set_elem_keys, elem_of_cons.
    tauto.
Qed.

Lemma dict_fromkeys_NoDup (ks : list K) v0 :
  NoDup (dict_keys (dict_fromkeys ks v0)).
Proof. apply (dict_fromkeys_keys_acc ks v0 []). apply NoDup_nil_2. Qed.

Lemma dict_fromkeys_elem_keys (ks : list K) v0 k :
  k ∈ dict_keys (dict_fromkeys ks v0) <-> k ∈ ks.
Proof.
  destruct (dict_fromkeys_keys_acc ks v0 []) as [_ Hkeys].
  { apply NoDup_nil_2. }
  unfold dict_fromkeys. rewrite Hkeys. unfold dict_keys. simpl.
  rewrite elem_of_nil. tauto.
Qed.

Lemma dict_filter_absent k d :
  k ∉ dict_keys d -> filter (fun entry => entry.1 = k) d = [].
Proof.
  unfold dict_keys. induction d as [|[k0 v0] d IH]; [done|].
  rewrite fmap_cons, not_elem_of_cons. simpl. intros [Hne Hnotin].
  rewrite filter_cons_False by (simpl; congruence). by apply IH.
Qed.

(** A dictionary holds exactly one entry under a key it has. *)
Lemma dict_filter_key k v d :
  NoDup (dict_keys d) -> dict_get k d = Some v ->
  filter (fun entry => entry.1 = k) d = [(k, v)].
Proof.
  intros Hnd Hget.
  destruct (dict_get_split _ _ _ Hget) as (d1 & d2 & -> & Hnot1 & _ & _).
  unfold dict_keys in Hnd. rewrite fmap_app, fmap_cons in Hnd.
  apply NoDup_app in Hnd as (_ & _ & [Hnot2 _]%NoDup_cons).
  rewrite filter_app, filter_cons_True by done.
  by rewrite !dict_filter_absent.
Qed.

Lemma dict_fromkeys_get (ks : list K) v0 k v :
  dict_get k (dict_fromkeys ks v0) = Some v -> v = v0.
Proof.
  unfold dict_fromkeys.
  assert (Hacc : forall d,
             (forall k v, dict_get k d = Some v -> v = v0) ->
             forall k v,
               dict_get k (foldl (fun d k => dict_set k v0 d) d ks) = Some v ->
               v = v0).
  { induction ks as [|k0 ks IH]; intros d Hd; simpl; [done|].
    apply IH. intros k1 v1. destruct (decide (k0 = k1)) as [->|Hne].
    - rewrite dict_get_set_eq. congruence.
    - rewrite dict_get_set_ne by done. apply Hd. }
  apply Hacc. intros k1 v1. done.
Qed.

End Facts.
End PyDictFacts.

(** ** The authentication broker *)
Module OAuthSpec.
Import OAuth PyDictFacts.

Lemma fresh_inv : broker_inv fresh.
Proof.
  split; simpl; try apply NoDup_nil_2.
  unfold pending_queues. simpl. intros q Hq. by apply elem_of_nil in Hq.
Qed.

Lemma pending_lt b q :
  broker_inv b -> q ∈ pending_queues b -> q < length (queues b).
Proof. intros Hinv Hq. eapply lookup_lt_Some, inv_empty; eauto. Qed.

Lemma pending_of_get b state target q :
  dict_get state (auth_redirs (server b)) = Some (target, q) ->
  q ∈ pending_queues b.
Proof.
  intros Hget. apply dict_get_Some_elem in Hget.
  unfold pending_queues, dict_values.
  apply list_elem_of_fmap. exists (target, q). split; [done|].
  apply list_elem_of_fmap. by exists (state, (target, q)).
Qed.

Lemma register_inv target state b :
  broker_inv b -> broker_inv (auth_redir_register target state b).2.
Proof.
  intros Hinv. pose proof (inv_keys _ Hinv) as Hk.
  pose proof (inv_queues _ Hinv) as Hq.
  assert (Hfresh : length (queues b) ∉ pending_queues b).
  { intros Hin. apply (pending_lt _ _ Hinv) in Hin. lia. }
  unfold pending_queues, dict_values in *.
  destruct (dict_get state (auth_redirs (server b))) as [[t0 q0]|] eqn:Hget.
  - destruct (dict_get_split _ _ _ Hget) as (d1 & d2 & Hd & _ & _ & Hset).
    split; simpl.
    + by apply dict_set_NoDup.
    + unfold pending_queues, dict_values. simpl. rewrite Hset.
      rewrite Hd in Hq, Hfresh. rewrite !fmap_app, !fmap_cons in *. simpl in *.
      rewrite NoDup_app, NoDup_cons in *.
      rewrite !elem_of_app, !elem_of_cons in Hfresh.
      destruct Hq as (Hq1 & Hq12 & Hn2 & Hq2). split_and!; try done.
      * intros x Hx. rewrite not_elem_of_cons. split.
        -- intros ->. apply Hfresh. by left.
        -- specialize (Hq12 x Hx). rewrite not_elem_of_cons in Hq12. tauto.
      * intros Hin. apply Hfresh. right. by right.
    + unfold pending_queues, dict_values. simpl. rewrite Hset.
      intros q. rewrite !fmap_app, !fmap_cons, !elem_of_app, !elem_of_cons.
      simpl. intros Hin.
      destruct (decide (q = length (queues b))) as [->|Hne].
      * rewrite lookup_app_r by lia. by rewrite Nat.sub_diag.
      * assert (Hq' : q ∈ pending_queues b).
        { unfold pending_queues, dict_values. rewrite Hd.
          rewrite !fmap_app, !fmap_cons, !elem_of_app, !elem_of_cons. tauto. }
        rewrite lookup_app_l by (by apply pending_lt).
        by apply (inv_empty _ Hinv).
  - split; simpl.
    + by apply dict_set_NoDup.
    + unfold pending_queues, dict_values. simpl.
      rewrite dict_set_absent by done. rewrite !fmap_app. simpl.
      apply NoDup_app. split_and!; [done| |apply NoDup_singleton].
      intros x Hx Hx'. apply list_elem_of_singleton in Hx' as ->. done.
    + unfold pending_queues, dict_values. simpl.
      rewrite dict_set_absent by done.
      intros q. rewrite !fmap_app, elem_of_app. simpl.
      rewrite list_elem_of_singleton. intros [Hin| ->].
      * rewrite lookup_app_l by (by apply pending_lt).
        by apply (inv_empty _ Hinv).
      * rewrite lookup_app_r by lia. by rewrite Nat.sub_diag.
Qed.

(** The queue of an entry is the queue of no other entry. *)
Lemma removed_queue_not_pending b state target q :
  broker_inv b ->
  dict_get state (auth_redirs (server b)) = Some (target, q) ->
  q ∉ (dict_values (dict_del state (auth_redirs (server b)))).*2.
Proof.
  intros Hinv Hget. pose proof (inv_queues _ Hinv) as Hq.
  destruct (dict_get_split _ _ _ Hget) as (d1 & d2 & Hd & _ & Hdel & _).
  unfold pending_queues, dict_values in *. rewrite Hdel. rewrite Hd in Hq.
  rewrite !fmap_app, !fmap_cons in *. simpl in *.
  apply NoDup_app in Hq as (_ & Hq12 & Hq2). apply NoDup_cons in Hq2 as [Hn2 _].
  rewrite elem_of_app. intros [Hin|Hin]; [|done].
  apply (Hq12 _ Hin). apply list_elem_of_here.
Qed.

Lemma callback_inv query b :
  broker_inv b -> broker_inv (_oauth2_msal query b).2.
Proof.
  intros Hinv. unfold _oauth2_msal.
  destruct (dict_get "state" query) as [state|]; [|done]. simpl.
  destruct (dict_get state (auth_redirs (server b))) as [[t q]|] eqn:Hget;
    [|done].
  pose proof (removed_queue_not_pending _ _ _ _ Hinv Hget) as Hnot.
  assert (Hsub : sublist (dict_values (dict_del state (auth_redirs (server b)))).*2
                   (pending_queues b)).
  { apply fmap_sublist, dict_values_del_sublist. }
  split; simpl.
  - apply dict_del_NoDup, Hinv.
  - unfold pending_queues. simpl.
    eapply sublist_NoDup; [apply (inv_queues _ Hinv) | exact Hsub].
  - unfold pending_queues. simpl. intros q' Hq'.
    unfold put_nowait. rewrite list_lookup_alter_ne by (intros ->; done).
    apply (inv_empty _ Hinv). eapply elem_of_sublist; eauto.
Qed.

Lemma handle_inv b r : broker_inv b -> broker_inv (handle b r).
Proof.
  destruct r; simpl; [apply register_inv | done | apply callback_inv].
Qed.

Lemma run_inv b rs : broker_inv b -> broker_inv (run b rs).
Proof.
  revert b. induction rs as [|r rs IH]; intros b Hinv; simpl; [done|].
  apply IH, handle_inv, Hinv.
Qed.

Lemma reachable_inv b : reachable b -> broker_inv b.
Proof. intros [rs ->]. apply run_inv, fresh_inv. Qed.

(** *** Queues that no entry refers to *)

Lemma register_pending target state b q :
  q ∈ pending_queues (auth_redir_register target state b).2 ->
  q = length (queues b) \/ q ∈ pending_queues b.
Proof.
  unfold pending_queues, dict_values. simpl.
  destruct (dict_get state (auth_redirs (server b))) as [[t0 q0]|] eqn:Hget.
  - destruct (dict_get_split _ _ _ Hget) as (d1 & d2 & Hd & _ & _ & Hset).
    rewrite Hset, Hd. rewrite !fmap_app, !fmap_cons, !elem_of_app, !elem_of_cons.
    simpl. tauto.
  - rewrite dict_set_absent by done.
    rewrite !fmap_app, elem_of_app. simpl. rewrite list_elem_of_singleton. tauto.
Qed.

Lemma handle_not_pending b r q :
  q < length (queues b) -> q ∉ pending_queues b ->
  queues (handle b r) !! q = queues b !! q /\
  q < length (queues (handle b r)) /\
  q ∉ pending_queues (handle b r).
Proof.
  intros Hlt Hnot. destruct r as [target state| |query]; simpl.
  - split_and!.
    + by rewrite lookup_app_l.
    + rewrite length_app. lia.
    + intros [->|Hin]%register_pending; [lia | done].
  - done.
  - unfold _oauth2_msal.
    destruct (dict_get "state" query) as [state|]; [|done]. simpl.
    destruct (dict_get state (auth_redirs (server b))) as [[t q0]|] eqn:Hget;
      [|done].
    simpl. split_and!.
    + unfold put_nowait. apply list_lookup_alter_ne. intros ->.
      apply Hnot. eapply pending_of_get; eauto.
    + unfold put_nowait. by rewrite length_alter.
    + intros Hin. apply Hnot. unfold pending_queues in *. simpl in Hin.
      eapply elem_of_sublist; [exact Hin|].
      apply fmap_sublist, dict_values_del_sublist.
Qed.

(** A queue that no entry refers to is never put to again. *)
Lemma run_not_pending b rs q :
  q < length (queues b) -> q ∉ pending_queues b ->
  queues (run b rs) !! q = queues b !! q.
Proof.
  revert b. induction rs as [|r rs IH]; intros b Hlt Hnot; simpl; [done|].
  destruct (handle_not_pending b r q Hlt Hnot) as (Heq & Hlt' & Hnot').
  unfold run in IH. rewrite IH by done. exact Heq.
Qed.

(** *** Delivery of callbacks *)

Lemma callback_queues query state target q b :
  broker_inv b ->
  state_of query = Some state ->
  dict_get state (auth_redirs (server b)) = Some (target, q) ->
  let b' := (_oauth2_msal query b).2 in
  auth_redirs (server b') = dict_del state (auth_redirs (server b)) /\
  queues b' !! q = Some [query] /\
  length (queues b') = length (queues b) /\
  (q ∉ pending_queues b') /\
  forall q', q' ≠ q -> queues b' !! q' = queues b !! q'.
Proof.
  intros Hinv Hstate Hget. unfold state_of in Hstate. unfold _oauth2_msal.
  rewrite Hstate. simpl. rewrite Hget. simpl. unfold put_nowait. split_and!.
  - done.
  - rewrite list_lookup_alter_eq.
    assert (Hq : queues b !! q = Some []).
    { apply (inv_empty _ Hinv). eapply pending_of_get; eauto. }
    by rewrite Hq.
  - apply length_alter.
  - unfold pending_queues. simpl.
    eapply removed_queue_not_pending; eauto.
  - intros q' Hne. by apply list_lookup_alter_ne.
Qed.

Lemma deliver_first b callbacks state target q :
  broker_inv b ->
  dict_get state (auth_redirs (server b)) = Some (target, q) ->
  queues (deliver_all callbacks b) !! q =
  Some (take 1 (filter (fun c => state_of c = Some state) callbacks)).
Proof.
  revert b. induction callbacks as [|c cbs IH]; intros b Hinv Hget.
  - simpl. apply (inv_empty _ Hinv). eapply pending_of_get; eauto.
  - unfold deliver_all in *. rewrite fmap_cons. simpl.
    destruct (state_of c) as [s0|] eqn:Hs0.
    + destruct (decide (s0 = state)) as [->|Hne].
      * rewrite filter_cons_True by done. simpl. rewrite take_0.
        destruct (callback_queues c state target q b Hinv Hs0 Hget)
          as (_ & Hq & Hlen & Hnot & _).
        rewrite run_not_pending; [done| |done].
        rewrite Hlen. apply pending_lt; [done|]. eapply pending_of_get; eauto.
      * rewrite filter_cons_False by congruence.
        apply IH; [by apply callback_inv|].
        unfold _oauth2_msal. unfold state_of in Hs0. rewrite Hs0. simpl.
        destruct (dict_get s0 (auth_redirs (server b))) as [[t0 q0]|]; [|done].
        simpl. by rewrite dict_get_del_ne.
    + rewrite filter_cons_False by congruence.
      unfold _oauth2_msal at 1. unfold state_of in Hs0. rewrite Hs0.
      by apply IH.
Qed.

Lemma filter_at_most_one {A B} `{EqDecision B} (f : A -> B) (y : B) (l : list A) :
  NoDup (f <$> l) ->
  take 1 (filter (fun c => f c = y) l) = filter (fun c => f c = y) l.
Proof.
  induction l as [|c l IH]; [done|]. rewrite fmap_cons.
  intros [Hnotin Hnd]%NoDup_cons.
  destruct (decide (f c = y)) as [Hy|Hy].
  - rewrite filter_cons_True by done. simpl. rewrite take_0. f_equal.
    destruct (filter (fun c0 => f c0 = y) l) as [|x rest] eqn:Hf; [done|].
    exfalso. assert (Hx : x ∈ filter (fun c0 => f c0 = y) l).
    { rewrite Hf. apply list_elem_of_here. }
    apply list_elem_of_filter in Hx as [Hfx Hx].
    apply Hnotin. rewrite Hy, <- Hfx. apply list_elem_of_fmap. eauto.
  - rewrite filter_cons_False by done. by apply IH.
Qed.

(** *** Registration *)

Lemma register_all_snoc regs r b :
  register_all (regs ++ [r]) b =
  (auth_redir_register r.1 r.2 (register_all regs b)).2.
Proof. unfold register_all, run. by rewrite fmap_app, foldl_app. Qed.

Lemma register_all_length regs b :
  length (queues (register_all regs b)) = length (queues b) + length regs.
Proof.
  induction regs as [|r regs IH] using rev_ind.
  - unfold register_all. simpl. lia.
  - rewrite register_all_snoc. simpl. rewrite !length_app, IH. simpl. lia.
Qed.

Lemma register_all_lookup (regs : list (string * string)) b0 i target state :
  NoDup regs.*2 ->
  regs !! i = Some (target, state) ->
  dict_get state (auth_redirs (server (register_all regs b0))) =
  Some (target, length (queues b0) + i).
Proof.
  revert i. induction regs as [|r regs IH] using rev_ind; intros i Hnd Hi.
  - done.
  - rewrite register_all_snoc. simpl.
    rewrite fmap_app in Hnd. apply NoDup_app in Hnd as (Hnd & Hdisj & _).
    apply lookup_snoc_Some in Hi as [[Hlt Hi]|[-> ->]].
    + rewrite dict_get_set_ne; [by apply IH|].
      intros Heq. apply (Hdisj state).
      * apply list_elem_of_fmap. exists (target, state). split; [done|].
        eapply list_elem_of_lookup_2; eauto.
      * simpl. rewrite Heq. apply list_elem_of_here.
    + simpl. rewrite dict_get_set_eq, register_all_length. done.
Qed.

(** *** The callback endpoint *)



(** *** Multiplexing *)

(** C6.  After [auth_redir] calls with pairwise distinct state tokens, the
  [i]-th caller waits on a queue of its own; whatever part of the callbacks
  has been delivered, in whatever order, that queue holds the callbacks
  carrying the caller's own state token and no other; once all have been
  delivered the caller resumes with the query of the one callback that
  carries its token. *)
Theorem auth_multiplexing (b0 : Broker) (regs : list (string * string))
    (callbacks : list Query) :
  reachable b0 ->
  NoDup regs.*2 ->
  state_of <$> callbacks ≡ₚ Some <$> regs.*2 ->
  forall i target state,
    regs !! i = Some (target, state) ->
    let b := register_all regs b0 in
    let queue := length (queues b0) + i in
    (auth_redir_register target state (register_all (take i regs) b0)).1 = queue /\
    (forall delivered rest,
       callbacks = delivered ++ rest ->
       queues (deliver_all delivered b) !! queue =
       Some (filter (fun c => state_of c = Some state) delivered)) /\
    exists c,
      c ∈ callbacks /\ state_of c = Some state /\
      filter (fun c' => state_of c' = Some state) callbacks = [c] /\
      fst <$> queue_get queue (deliver_all callbacks b) = Some c.
Proof.
  intros Hreach Hnd Hperm i target state Hi b queue.
  assert (Hinv : broker_inv b) by by apply run_inv, reachable_inv.
  assert (Hget : dict_get state (auth_redirs (server b)) = Some (target, queue))
    by by apply register_all_lookup.
  assert (Hnd_cb : NoDup (state_of <$> callbacks)).
  { rewrite Hperm. apply (NoDup_fmap_2 Some), Hnd. }
  assert (Hprefix : forall delivered rest,
             callbacks = delivered ++ rest ->
             queues (deliver_all delivered b) !! queue =
             Some (filter (fun c => state_of c = Some state) delivered)).
  { intros delivered rest ->.
    rewrite (deliver_first b delivered state target queue Hinv Hget).
    rewrite filter_at_most_one; [done|].
    rewrite fmap_app in Hnd_cb. by apply NoDup_app in Hnd_cb as [? _]. }
  split_and!.
  - simpl. rewrite register_all_length. rewrite length_take.
    apply lookup_lt_Some in Hi. subst queue. lia.
  - exact Hprefix.
  - assert (Hin : Some state ∈ state_of <$> callbacks).
    { rewrite Hperm. apply list_elem_of_fmap. exists state. split; [done|].
      apply list_elem_of_fmap. exists (target, state). split; [done|].
      eapply list_elem_of_lookup_2; eauto. }
    apply list_elem_of_fmap in Hin as (c & Hc & Hcin).
    assert (Hfc : c ∈ filter (fun c' => state_of c' = Some state) callbacks).
    { apply list_elem_of_filter. by split. }
    pose proof (filter_at_most_one state_of (Some state) callbacks Hnd_cb) as H1.
    assert (Hone : filter (fun c' => state_of c' = Some state) callbacks = [c]).
    { destruct (filter (fun c' => state_of c' = Some state) callbacks)
        as [|x [|y l]].
      - by apply elem_of_nil in Hfc.
      - by apply list_elem_of_singleton in Hfc as ->.
      - simpl in H1. discriminate. }
    exists c. split_and!; try done.
    unfold queue_get.
    rewrite (Hprefix callbacks []) by (by rewrite app_nil_r).
    by rewrite Hone.
Qed.

(** *** Duplicate state tokens *)


(** *** The two-login scenario

    Two logins are pending and the callback for the second arrives first:
    only the second caller resumes, and the root page still sends the browser
    to the first login. *)

Example s2_resumes :
  fst <$> queue_get 1 (_oauth2_msal Scenarios.callback_s2 Scenarios.two_pending).2 =
  Some Scenarios.callback_s2.
Proof. reflexivity. Qed.

Example s1_still_waits :
  queue_get 0 (_oauth2_msal Scenarios.callback_s2 Scenarios.two_pending).2 = None.
Proof. reflexivity. Qed.

Example callback_redirects_to_s1 :
  (_oauth2_msal Scenarios.callback_s2 Scenarios.two_pending).1 =
  Return (HTTPFound "https://login.example/a").
Proof. reflexivity. Qed.

Example root_redirects_to_s1 :
  _start (server (_oauth2_msal Scenarios.callback_s2 Scenarios.two_pending).2) =
  HTTPFound "https://login.example/a".
Proof. reflexivity. Qed.

Example root_when_done :
  _start (server (deliver_all [Scenarios.callback_s2; Scenarios.callback_s1]
                    Scenarios.two_pending)) =
  TextResponse "Authentication done".
Proof. reflexivity. Qed.




Lemma auth_multiplexing_witness :
  fst <$> queue_get 0
    (deliver_all [Scenarios.callback_s2; Scenarios.callback_s1]
       Scenarios.two_pending) = Some Scenarios.callback_s1.
Proof.
  destruct (auth_multiplexing fresh
              [("https://login.example/a", "s1"); ("https://login.example/b", "s2")]
              [Scenarios.callback_s2; Scenarios.callback_s1])
    with (i := 0) (target := "https://login.example/a") (state := "s1")
    as (_ & _ & c & _ & _ & Hone & Hres).
  - by exists [].
  - compute_done.
  - apply perm_swap.
  - reflexivity.
  - injection Hone as <-. exact Hres.
Defined.


End OAuthSpec.

(** ** The reconciliation engine *)
Module MainSpec.
Import Main PyDictFacts.

Section Proofs.
Context {World : Type} `{External World}.

(** *** The monad *)

Lemma bind_run {A B} (m : M A) (f : A -> M B) st :
  bind m f st =
  match m st return Outcome B * State World * list Event with
  | (Return a, st1, evs1) => ((f a st1).1.1, (f a st1).1.2, evs1 ++ (f a st1).2)
  | (Raise e, st1, evs1) => (Raise e, st1, evs1)
  end.
Proof.
  unfold bind. destruct (m st) as [[[a|e] st1] evs1]; [|done].
  by destruct (f a st1) as [[o st2] evs2].
Qed.









(** A [gather] of calls makes every one of them, whatever they answer. *)
Lemma gather_calls_events {X} (ev : X -> Event) (op : X -> Op World) l st :
  (gather ((fun x => call (ev x) (op x)) <$> l) st).2 = ev <$> l.
Proof.
  revert st. induction l as [|x l IH]; intros st; simpl; [done|].
  unfold call at 1. destruct (op x (shared st)) as [o1 sh1].
  specialize (IH {| shared := sh1; web_app := web_app st |}).
  destruct (gather _ _) as [[o2 st2] evs2]. simpl in *. by rewrite IH.
Qed.

Lemma forallb_fmap_all {X} (p : Event -> bool) (ev : X -> Event) (l : list X) :
  (forall x, p (ev x) = true) -> forallb p (ev <$> l) = true.
Proof.
  intros Hp. induction l as [|x l IH]; csimpl; [done|]. by rewrite Hp, IH.
Qed.

Lemma forallb_elem (p : Event -> bool) (l : list Event) ev :
  forallb p l = true -> ev ∈ l -> p ev = true.
Proof.
  intros Hall Hin. apply list_elem_of_In in Hin.
  rewrite forallb_forall in Hall. by apply Hall.
Qed.

(** An accumulating loop keeps what each of its rounds keeps. *)
Lemma ofold_inv {A B} (P : B -> Prop) (f : B -> A -> Outcome B) l b b' :
  (forall b a b', P b -> f b a = Return b' -> P b') ->
  P b -> ofold f l b = Return b' -> P b'.
Proof.
  intros Hstep. revert b. induction l as [|a l IH]; intros b Hb; simpl.
  - by intros [= <-].
  - destruct (f b a) as [b1|e] eqn:Hf; simpl; [|done]. eauto.
Qed.

(** *** Keys of the routing results *)

Lemma route_message_inv cfg (msgs msgs' : MBoxDict) ch msg :
  route_message cfg msgs (ch, msg) = Return msgs' ->
  exists dest msgdict,
    direct_message cfg msg = Return dest /\
    dict_get dest msgs = Some msgdict /\
    msgs' = dict_set dest (dict_set ch msg msgdict) msgs.
Proof.
  unfold route_message.
  destruct (direct_message cfg msg) as [dest|e]; simpl; [|done].
  destruct (dict_get dest msgs) as [msgdict|] eqn:Hget; [|done].
  intros [= <-]. eauto.
Qed.

Lemma route_keys cfg (sh : Shared World) msgs :
  route cfg sh = Return msgs -> NoDup (dict_keys msgs).
Proof.
  unfold route.
  apply (ofold_inv (fun m : MBoxDict => NoDup (dict_keys m)));
    [|apply dict_fromkeys_NoDup].
  intros acc mbox acc' Hacc.
  apply (ofold_inv (fun m : MBoxDict => NoDup (dict_keys m))); [|done].
  intros b [ch msg] b' Hb (dest & msgdict & _ & _ & ->)%route_message_inv.
  by apply dict_set_NoDup.
Qed.

Lemma group_keys cfg (sh : Shared World) prev by_cloud :
  group_by_cloud cfg sh prev = Return by_cloud -> NoDup (dict_keys by_cloud).
Proof.
  unfold group_by_cloud.
  apply (ofold_inv (fun m : dict Mailbox CHMsgMappingDict => NoDup (dict_keys m)));
    [|apply dict_fromkeys_NoDup].
  intros acc entry acc' Hacc.
  apply (ofold_inv (fun m : dict Mailbox CHMsgMappingDict => NoDup (dict_keys m)));
    [|done].
  intros b [ch msg] b' Hb. unfold group_message.
  destruct (dict_get (mailbox msg) b); [|done]. intros [= <-].
  by apply dict_set_NoDup.
Qed.

(** *** The events of each step *)

Lemma refresh_events cfg st :
  forallb is_refresh_step (refresh cfg st).2 = true.
Proof.
  unfold refresh. rewrite gather_calls_events. by apply forallb_fmap_all.
Qed.

Lemma for_each_force_trace items st :
  force_trace items (for_each force_if_differs items st).2.
Proof.
  revert st. induction items as [|[mbox d] items IH]; intros st; simpl.
  - constructor.
  - rewrite bind_run. unfold force_if_differs.
    destruct (same_messages mbox (shared st) d); simpl.
    + apply force_skip, IH.
    + unfold call. destruct (force_content mbox d (shared st)) as [[[]|e] sh1];
        simpl; apply force_call; [apply IH | constructor].
Qed.

Lemma force_events cfg st :
  exists items,
    NoDup items.*1 /\ force_trace items (force_local_to_cloud cfg st).2.
Proof.
  unfold force_local_to_cloud. rewrite bind_run. unfold lift.
  destruct (route cfg (shared st)) as [msgs|e] eqn:Hroute; simpl.
  - exists (dict_items msgs). split; [by eapply route_keys|].
    rewrite bind_run.
    pose proof (for_each_force_trace (dict_items msgs) st) as Htrace.
    destruct (for_each force_if_differs (dict_items msgs) st)
      as [[[[]|e] st1] evs]; simpl in *; [by rewrite app_nil_r | done].
  - exists []. split; constructor.
Qed.

Lemma update_events cfg prev st :
  merge_trace (update_cloud_from_local cfg prev st).2.
Proof.
  unfold update_cloud_from_local.
  destruct (group_by_cloud cfg (shared st) prev) as [by_cloud|e] eqn:Hgroup.
  - pose proof (gather_calls_events
                  (fun c : Mailbox * CHMsgMappingDict * bool =>
                     EvMergeContent c.1.1 c.1.2)
                  (fun c => merge_content c.1.1 c.1.2)) as Hev.
    match goal with
    | |- context [gather (?f <$> ?l) st] =>
        specialize (Hev l st); destruct (gather (f <$> l) st) as [[o st1] evs]
    end.
    simpl in *. subst evs. eexists. split; [|reflexivity].
    rewrite <- !list_fmap_compose.
    erewrite list_fmap_ext; [by eapply group_keys|]. by intros i x _.
  - exists []. split; [constructor | done].
Qed.

Lemma wait_events msgs (st : State World) :
  forallb is_wait_step (wait_for_change msgs st).2 = true.
Proof.
  unfold wait_for_change, bind, call, call_total. simpl.
  destruct (changed_event_wait (shared st)) as [[[]|e] sh1]; simpl; [|done].
  destruct (cleanup_msgs msgs (changed_event_clear sh1)) as [[[]|e] sh2]; done.
Qed.

Lemma retry_later_run (st : State World) :
  retry_later st =
  (Return tt, after_retry st,
   [EvLogException "Failed update cycle, sleeping then retrying"; EvSleep 10]).
Proof. done. Qed.

(** *** What the shapes say *)

Lemma force_trace_route items evs :
  force_trace items evs -> forallb is_route_step evs = true.
Proof. induction 1; simpl; done. Qed.

Lemma force_trace_elem items evs ev :
  force_trace items evs -> ev ∈ evs ->
  exists mbox d, (mbox, d) ∈ items /\
    (ev = EvForceContent mbox d \/ exists same, ev = EvSameMessages mbox d same).
Proof.
  induction 1 as [items|mbox d items evs _ IH|mbox d items evs _ IH].
  - intros Hin. by apply elem_of_nil in Hin.
  - intros [->|Hin]%elem_of_cons.
    + exists mbox, d. split; [apply list_elem_of_here | eauto].
    + destruct (IH Hin) as (mbox' & d' & Hitem & Hev).
      exists mbox', d'. split; [by apply list_elem_of_further | done].
  - intros [->|[->|Hin]%elem_of_cons]%elem_of_cons.
    + exists mbox, d. split; [apply list_elem_of_here | eauto].
    + exists mbox, d. split; [apply list_elem_of_here | eauto].
    + destruct (IH Hin) as (mbox' & d' & Hitem & Hev).
      exists mbox', d'. split; [by apply list_elem_of_further | done].
Qed.




Lemma merge_trace_step evs : merge_trace evs -> forallb is_merge_step evs = true.
Proof.
  intros (compared & _ & ->). rewrite forallb_app.
  by rewrite !forallb_fmap_all.
Qed.





(** *** The events of an iteration *)

Lemma merge_trace_nil : merge_trace [].
Proof. exists []. split; [constructor | done]. Qed.

Lemma cycle_body_events cfg msgs st :
  exists r m f,
    (cycle_body cfg msgs st).2 = r ++ m ++ f /\
    r = (refresh cfg st).2 /\
    merge_trace m /\
    exists items, NoDup items.*1 /\ force_trace items f.
Proof.
  unfold cycle_body. rewrite bind_run.
  destruct (refresh cfg st) as [[[[]|e] st1] r]; simpl.
  - rewrite bind_run.
    assert (Hm : merge_trace
              ((match msgs with
                | Some prev => update_cloud_from_local cfg prev
                | None => ret tt
                end) st1).2).
    { destruct msgs; [apply update_events | apply merge_trace_nil]. }
    destruct ((match msgs with
               | Some prev => update_cloud_from_local cfg prev
               | None => ret tt
               end) st1) as [[[[]|e] st2] m]; simpl in *.
    + destruct (force_events cfg st2) as (items & Hnd & Ht).
      exists r, m, (force_local_to_cloud cfg st2).2.
      split_and!; try done. by exists items.
    + exists r, m, []. rewrite app_nil_r. split_and!; try done.
      exists []. split; constructor.
  - exists r, [], []. rewrite app_nil_r. split_and!; try done.
    + apply merge_trace_nil.
    + exists []. split; constructor.
Qed.

Lemma iteration_events cfg msgs st :
  exists r m f t,
    (iteration cfg msgs st).2 = r ++ m ++ f ++ t /\
    r = (refresh cfg st).2 /\
    merge_trace m /\
    (exists items, NoDup items.*1 /\ force_trace items f) /\
    forallb is_wait_step t = true /\
    (EvWait ∈ t ->
     exists msgs' st1 evs1, cycle_body cfg msgs st = (Return msgs', st1, evs1)).
Proof.
  unfold iteration.
  destruct (cycle_body_events cfg msgs st) as (r & m & f & Hev & Hr & Hm & Hf).
  destruct (cycle_body cfg msgs st) as [[[msgs'|e] st1] evs1]; simpl in Hev;
    subst evs1.
  - pose proof (wait_events msgs' st1) as Hw.
    destruct (wait_for_change msgs' st1) as [[[[]|e] st2] t]; simpl in *;
      exists r, m, f, t; rewrite <- !app_assoc; split_and!; eauto.
  - destruct (except_matches retry_clause e).
    + rewrite retry_later_run. simpl. eexists r, m, f, _.
      rewrite <- !app_assoc. split_and!; try done.
      intros [[=]|[[=]|[]%elem_of_nil]%elem_of_cons]%elem_of_cons.
    + simpl. exists r, m, f, []. rewrite !app_nil_r.
      split_and!; try done. intros []%elem_of_nil.
Qed.

Lemma main_loop_cycles (P : list Event -> Prop) cfg :
  (forall msgs st, P (iteration cfg msgs st).2) ->
  forall fuel msgs st, Forall P (main_loop cfg fuel msgs st).2.
Proof.
  intros HP. induction fuel as [|fuel IH]; intros msgs st; simpl.
  - constructor.
  - specialize (HP msgs st).
    destruct (iteration cfg msgs st) as [[[msgs'|e] st1] evs]; simpl in *.
    + specialize (IH msgs' st1).
      destruct (main_loop cfg fuel msgs' st1) as [[r st2] rest]. simpl in *.
      by constructor.
    + by repeat constructor.
Qed.

Lemma synchronize_mail_cycles_run cfg fuel st :
  cycles (synchronize_mail cfg fuel st) =
  tried_cycles (try_block cfg fuel (new_web_app st)).
Proof.
  unfold synchronize_mail.
  destruct (tried_result (try_block cfg fuel (new_web_app st))); [|done].
  by destruct (teardown _) as [[o st2] tevs].
Qed.

Lemma synchronize_mail_cycles (P : list Event -> Prop) cfg :
  (forall msgs st, P (iteration cfg msgs st).2) ->
  forall fuel st, Forall P (cycles (synchronize_mail cfg fuel st)).
Proof.
  intros HP fuel st. rewrite synchronize_mail_cycles_run. unfold try_block.
  destruct (startup cfg (new_web_app st)) as [[[[]|e] st1] evs]; simpl.
  - pose proof (main_loop_cycles P cfg HP fuel None st1) as Hall.
    by destruct (main_loop cfg fuel None st1) as [[r st2] cs].
  - constructor.
Qed.

(** *** Which step an event belongs to *)


Lemma forallb_lookup (p : Event -> bool) (l : list Event) i a :
  forallb p l = true -> l !! i = Some a -> p a = true.
Proof.
  intros Hall Hi. eapply forallb_elem; [done|].
  eapply list_elem_of_lookup_2; eauto.
Qed.

(** In a sequence of four steps, what only the first two steps can emit
    comes before what only the last two can emit. *)
Lemma in_steps_precede p1 p2 p3 p4 (P Q : Event -> bool) evs :
  in_steps [p1; p2; p3; p4] evs ->
  (forall ev, P ev = true -> p3 ev = false /\ p4 ev = false) ->
  (forall ev, Q ev = true -> p1 ev = false /\ p2 ev = false) ->
  calls_precede P Q evs.
Proof.
  simpl.
  intros (l1 & ? & -> & H1 & l2 & ? & -> & H2 & l3 & ? & -> & H3 &
          l4 & ? & -> & H4 & ->) HP HQ i j a b Hi Hj Pa Qb.
  rewrite app_nil_r in *.
  destruct (HP a Pa) as [Ha3 Ha4]. destruct (HQ b Qb) as [Hb1 Hb2].
  assert (Hi' : i < length l1 + length l2).
  { apply lookup_app_Some in Hi as [Hi|[? Hi]]; [apply lookup_lt_Some in Hi; lia|].
    apply lookup_app_Some in Hi as [Hi|[? Hi]]; [apply lookup_lt_Some in Hi; lia|].
    apply lookup_app_Some in Hi as [Hi|[? Hi]].
    - apply (forallb_lookup _ _ _ _ H3) in Hi. congruence.
    - apply (forallb_lookup _ _ _ _ H4) in Hi. congruence. }
  assert (Hj' : length l1 + length l2 <= j).
  { apply lookup_app_Some in Hj as [Hj|[? Hj]].
    { apply (forallb_lookup _ _ _ _ H1) in Hj. congruence. }
    apply lookup_app_Some in Hj as [Hj|[? Hj]].
    { apply (forallb_lookup _ _ _ _ H2) in Hj. congruence. }
    lia. }
  lia.
Qed.

Lemma in_steps_four p1 p2 p3 p4 l1 l2 l3 l4 :
  forallb p1 l1 = true -> forallb p2 l2 = true ->
  forallb p3 l3 = true -> forallb p4 l4 = true ->
  in_steps [p1; p2; p3; p4] (l1 ++ l2 ++ l3 ++ l4).
Proof.
  intros H1 H2 H3 H4. simpl.
  exists l1, (l2 ++ l3 ++ l4). split_and!; try done.
  exists l2, (l3 ++ l4). split_and!; try done.
  exists l3, l4. split_and!; try done.
  exists l4, []. by rewrite app_nil_r.
Qed.

(** *** Order of the steps *)

(** C1, as the loop has it.  In every iteration of the loop of
    [synchronize_mail] the refresh calls come first, then the comparisons and
    merge calls of [update_cloud_from_local], then the comparisons and force
    calls of [force_local_to_cloud], then the wait (or the retry delay): every
    [merge_content] call of an iteration precedes every [force_content] call
    of that iteration.  The refresh calls are the [update_message_list] calls
    on the mailboxes that were dirty when the iteration started, and the wait
    is reached only when the three steps before it returned. *)
Theorem cycle_steps_in_order (cfg : Config) (fuel : nat) (st : State World) :
  Forall (fun evs => in_steps cycle_order evs /\
                     calls_precede is_merge_content is_force_content evs)
         (cycles (synchronize_mail cfg fuel st)) /\
  (forall msgs st0,
     exists later,
       (iteration cfg msgs st0).2 =
       (EvUpdateMessageList
        <$> List.filter (fun mbox => need_update mbox (shared st0))
              (all_mboxes cfg)) ++ later /\
       in_steps [is_merge_step; is_route_step; is_wait_step] later) /\
  (forall msgs st0,
     EvWait ∈ (iteration cfg msgs st0).2 ->
     exists msgs' st1 evs1,
       cycle_body cfg msgs st0 = (Return msgs', st1, evs1)).
Proof.
  split_and!.
  - apply synchronize_mail_cycles. intros msgs st0.
    destruct (iteration_events cfg msgs st0)
      as (r & m & f & t & -> & -> & Hm & (items & _ & Hf) & Ht & _).
    assert (Hsteps : in_steps cycle_order
                       ((refresh cfg st0).2 ++ m ++ f ++ t)).
    { apply in_steps_four; [apply refresh_events | by apply merge_trace_step
                           | by eapply force_trace_route | done]. }
    split; [done|]. eapply in_steps_precede; [exact Hsteps | |];
      by intros [].
  - intros msgs st0.
    destruct (iteration_events cfg msgs st0)
      as (r & m & f & t & -> & -> & Hm & (items & _ & Hf) & Ht & _).
    exists (m ++ f ++ t). split.
    + unfold refresh. by rewrite gather_calls_events.
    + apply merge_trace_step in Hm. apply force_trace_route in Hf.
      simpl. exists m, (f ++ t). split_and!; try done.
      exists f, t. split_and!; try done.
      exists t, []. by rewrite app_nil_r.
  - intros msgs st0.
    destruct (iteration_events cfg msgs st0)
      as (r & m & f & t & -> & -> & Hm & (items & _ & Hf) & Ht & Hwait).
    pose proof (refresh_events cfg st0) as Hr.
    apply merge_trace_step in Hm. apply force_trace_route in Hf.
    rewrite !elem_of_app. intros [Hin|[Hin|[Hin|Hin]]]; [| | |by apply Hwait].
    + by apply (forallb_elem _ _ _ Hr) in Hin.
    + by apply (forallb_elem _ _ _ Hm) in Hin.
    + by apply (forallb_elem _ _ _ Hf) in Hin.
Qed.


(** *** Retry *)

Lemma cycle_starts_with_refresh cfg msgs st :
  exists rest, (iteration cfg msgs st).2 = (refresh cfg st).2 ++ rest.
Proof.
  destruct (iteration_events cfg msgs st) as (r & m & f & t & -> & -> & _).
  eauto.
Qed.

Lemma main_loop_S cfg fuel msgs st :
  main_loop cfg (S fuel) msgs st =
  match iteration cfg msgs st with
  | (Stop e, st1, evs) => (Exited e, st1, [evs])
  | (Continue msgs', st1, evs) =>
      let '(r, st2, rest) := main_loop cfg fuel msgs' st1 in
      (r, st2, evs :: rest)
  end.
Proof. done. Qed.

(** C2, as the loop has it.  When the body of the loop raises, the iteration
    logs the failure, sleeps 10 and lets the loop go on with the same [msgs]
    exactly when the exception is an instance of one of the five classes of
    the [except] clause, [RuntimeError] among them; any other exception leaves
    the loop.  The iteration that follows starts with the refresh step. *)
Theorem retry_on_listed_exceptions (cfg : Config) (msgs : option MBoxDict)
    (st : State World) :
  retries_exactly retry_clause cfg msgs st /\
  (forall e,
     except_matches retry_clause e = true <->
     isinstance e FileNotFoundError = true \/
     isinstance e AsyncioTimeoutError = true \/
     isinstance e ClientError = true \/
     isinstance e IOError = true \/
     isinstance e RuntimeError = true) /\
  (forall fuel e st1 evs,
     cycle_body cfg msgs st = (Raise e, st1, evs) ->
     main_loop cfg (S fuel) msgs st =
     if except_matches retry_clause e then
       let '(r, st2, rest) := main_loop cfg fuel msgs (after_retry st1) in
       (r, st2,
        (evs ++ [EvLogException "Failed update cycle, sleeping then retrying";
                 EvSleep 10]) :: rest)
     else (Exited e, st1, [evs])) /\
  (forall msgs' st',
     exists rest, (iteration cfg msgs' st').2 = (refresh cfg st').2 ++ rest).
Proof.
  assert (Hiter : retries_exactly retry_clause cfg msgs st).
  { intros e st1 evs Hbody. unfold iteration. rewrite Hbody.
    destruct (except_matches retry_clause e); [|done].
    by rewrite retry_later_run. }
  split_and!.
  - exact Hiter.
  - intros e. unfold except_matches, retry_clause. simpl.
    rewrite !orb_true_iff. intuition congruence.
  - intros fuel e st1 evs Hbody. specialize (Hiter e st1 evs Hbody).
    rewrite main_loop_S.
    destruct (except_matches retry_clause e); by rewrite Hiter.
  - intros msgs' st'. apply cycle_starts_with_refresh.
Qed.

(** *** Routing *)

Lemma ofold_cons {A B} (f : B -> A -> Outcome B) a l b :
  ofold f (a :: l) b = obind (f b a) (ofold f l).
Proof. done. Qed.

Lemma ofold_app {A B} (f : B -> A -> Outcome B) l1 l2 b :
  ofold f (l1 ++ l2) b = obind (ofold f l1 b) (ofold f l2).
Proof.
  revert b. induction l1 as [|a l1 IH]; intros b; simpl; [done|].
  destruct (f b a); simpl; [apply IH | done].
Qed.

Lemma ofold_concat {A B C} (f : B -> A -> Outcome B) (g : C -> list A) l b :
  ofold (fun acc x => ofold f (g x) acc) l b = ofold f (mjoin (g <$> l)) b.
Proof.
  revert b. induction l as [|x l IH]; intros b; csimpl; [done|].
  rewrite ofold_app. destruct (ofold f (g x) b); simpl; [apply IH | done].
Qed.

Lemma route_message_wf cfg msgs item msgs' :
  targets_wf msgs -> route_message cfg msgs item = Return msgs' ->
  targets_wf msgs'.
Proof.
  destruct item as [ch msg].
  intros [Hnd Hin] (dest & msgdict & _ & Hget & ->)%route_message_inv. split.
  - by apply dict_set_NoDup.
  - intros dest' target. destruct (decide (dest = dest')) as [->|Hne].
    + rewrite dict_get_set_eq. intros [= <-]. eapply dict_set_NoDup, Hin, Hget.
    + rewrite dict_get_set_ne by done. apply Hin.
Qed.

Lemma route_items_stable cfg items (msgs0 msgs : MBoxDict) dest t0 ch m :
  ofold (route_message cfg) items msgs0 = Return msgs ->
  dict_get dest msgs0 = Some t0 -> dict_get ch t0 = Some m ->
  (forall m', (ch, m') ∈ items -> direct_message cfg m' = Return dest -> m' = m) ->
  exists t, dict_get dest msgs = Some t /\ dict_get ch t = Some m.
Proof.
  revert msgs0 t0. induction items as [|[ch1 m1] items IH];
    intros msgs0 t0; [simpl | rewrite ofold_cons].
  - intros [= <-]. eauto.
  - destruct (route_message cfg msgs0 (ch1, m1)) as [msgs1|e] eqn:Hstep;
      simpl; [|done].
    apply route_message_inv in Hstep as (dest1 & t1 & Hd1 & Hget1 & ->).
    intros Hfold Hget Hch Huniq.
    destruct (decide (dest1 = dest)) as [->|Hne].
    + eapply (IH _ (dict_set ch1 m1 t0)); [exact Hfold | | |].
      * rewrite dict_get_set_eq. congruence.
      * destruct (decide (ch1 = ch)) as [->|Hnech].
        -- rewrite dict_get_set_eq. f_equal. apply Huniq; [|done].
           apply list_elem_of_here.
        -- by rewrite dict_get_set_ne.
      * intros m' Hin. apply Huniq. by apply list_elem_of_further.
    + eapply (IH _ t0); [exact Hfold | | done |].
      * by rewrite dict_get_set_ne.
      * intros m' Hin. apply Huniq. by apply list_elem_of_further.
Qed.

Lemma route_items_routed cfg items (msgs0 msgs : MBoxDict) ch m :
  ofold (route_message cfg) items msgs0 = Return msgs ->
  (ch, m) ∈ items ->
  (forall m', (ch, m') ∈ items ->
              direct_message cfg m' = direct_message cfg m -> m' = m) ->
  exists dest t,
    direct_message cfg m = Return dest /\
    dict_get dest msgs = Some t /\ dict_get ch t = Some m.
Proof.
  revert msgs0. induction items as [|[ch1 m1] items IH]; intros msgs0;
    [simpl | rewrite ofold_cons].
  - intros _ Hin. by apply elem_of_nil in Hin.
  - destruct (route_message cfg msgs0 (ch1, m1)) as [msgs1|e] eqn:Hstep;
      simpl; [|done].
    intros Hfold Hin Huniq.
    assert (Hhead : (ch1, m1) = (ch, m) \/ ((ch1, m1) ≠ (ch, m) /\ (ch, m) ∈ items)).
    { apply elem_of_cons in Hin as [Heq|Hin]; [by left|].
      destruct (decide ((ch1, m1) = (ch, m))); [by left | by right]. }
    destruct Hhead as [[= -> ->]|[_ Hin']].
    + apply route_message_inv in Hstep as (dest & t & Hd & Hget & ->).
      destruct (route_items_stable cfg items _ msgs dest (dict_set ch m t) ch m
                  Hfold) as (t' & Hget' & Hch').
      * apply dict_get_set_eq.
      * apply dict_get_set_eq.
      * intros m' Hin' Hd'. apply Huniq; [by apply list_elem_of_further|].
        congruence.
      * eauto.
    + eapply IH; [exact Hfold | done |].
      intros m' Hin''. apply Huniq. by apply list_elem_of_further.
Qed.

Lemma route_wf cfg (sh : Shared World) msgs :
  route cfg sh = Return msgs -> targets_wf msgs.
Proof.
  unfold route.
  apply (ofold_inv targets_wf).
  - intros acc mbox acc' Hacc. apply (ofold_inv targets_wf); [|done].
    intros b item b'. apply route_message_wf.
  - split; [apply dict_fromkeys_NoDup|].
    intros dest target ->%dict_fromkeys_get. constructor.
Qed.

Lemma force_local_to_cloud_route cfg st msgs st' evs :
  force_local_to_cloud cfg st = (Return msgs, st', evs) ->
  route cfg (shared st) = Return msgs.
Proof.
  unfold force_local_to_cloud. rewrite bind_run. unfold lift.
  destruct (route cfg (shared st)) as [msgs0|e]; simpl; [|done].
  rewrite bind_run.
  destruct (for_each force_if_differs (dict_items msgs0) st)
    as [[[[]|e] st1] evs1]; simpl; [|done].
  by intros [= -> _ _].
Qed.

(** C3, as the loops have it.  When [force_local_to_cloud] returns, then for
    every entry [(ch, msg)] of a cloud snapshot such that every cloud entry
    under [ch] with the same destination carries the same record, the
    returned mapping has exactly one target snapshot for [direct_message msg],
    and that snapshot has exactly one entry under [ch], whose record is
    [msg]. *)
Theorem routing_completeness (cfg : Config) (st : State World)
    (msgs : MBoxDict) (st' : State World) (evs : list Event) :
  force_local_to_cloud cfg st = (Return msgs, st', evs) ->
  forall mbox ch msg,
    mbox ∈ cloud_mboxes cfg ->
    (ch, msg) ∈ dict_items (messages mbox (shared st)) ->
    (forall mbox' msg',
       mbox' ∈ cloud_mboxes cfg ->
       (ch, msg') ∈ dict_items (messages mbox' (shared st)) ->
       direct_message cfg msg' = direct_message cfg msg -> msg' = msg) ->
    exists dest, direct_message cfg msg = Return dest /\
                 routed_to msgs dest ch msg.
Proof.
  intros Hrun%force_local_to_cloud_route mbox ch msg Hmbox Hitem Huniq.
  pose proof (route_wf _ _ _ Hrun) as [Hnd Htargets].
  unfold route in Hrun. rewrite ofold_concat in Hrun.
  destruct (route_items_routed cfg _ _ msgs ch msg Hrun)
    as (dest & target & Hdest & Hget & Hch).
  - apply list_elem_of_join. exists (dict_items (messages mbox (shared st))).
    split; [done|]. by eapply list_elem_of_fmap_2'.
  - intros msg' (items & Hin & (mbox' & -> & Hmbox')%list_elem_of_fmap)%list_elem_of_join.
    by apply (Huniq mbox').
  - exists dest. split; [done|]. exists target. split.
    + by apply dict_filter_key.
    + apply dict_filter_key; [by eapply Htargets | done].
Qed.

(** *** The default routing policy *)

Lemma route_without_maildir cfg (sh : Shared World) mboxes :
  direct_message_override cfg = None -> local_mboxes cfg = [] ->
  (exists mbox, mbox ∈ mboxes /\ messages mbox sh <> []) ->
  ofold (fun msgs mbox =>
           ofold (route_message cfg) (dict_items (messages mbox sh)) msgs)
        mboxes [] = Raise IndexError.
Proof.
  intros Hdefault Hlocal. induction mboxes as [|mbox mboxes IH].
  - intros (mbox & Hin & _). by apply elem_of_nil in Hin.
  - intros (mbox' & Hin & Hne). rewrite ofold_cons. unfold dict_items.
    destruct (messages mbox sh) as [|[ch msg] items] eqn:Hsnap.
    + simpl. apply IH. exists mbox'. split; [|done].
      apply elem_of_cons in Hin as [->|Hin]; [congruence | done].
    + rewrite ofold_cons. unfold route_message, direct_message, _direct_message.
      by rewrite Hdefault, Hlocal.
Qed.

Lemma route_with_maildir cfg (sh : Shared World) mbox0 rest :
  direct_message_override cfg = None -> local_mboxes cfg = mbox0 :: rest ->
  exists msgs, route cfg sh = Return msgs.
Proof.
  intros Hdefault Hlocal.
  assert (Htotal : forall items (msgs : MBoxDict),
             mbox0 ∈ dict_keys msgs ->
             exists msgs', ofold (route_message cfg) items msgs = Return msgs' /\
                           mbox0 ∈ dict_keys msgs').
  { induction items as [|[ch msg] items IH]; intros msgs Hkey.
    - simpl. eauto.
    - rewrite ofold_cons.
      apply dict_get_is_Some in Hkey as Hget. destruct Hget as [t Hget].
      assert (Hstep : route_message cfg msgs (ch, msg) =
                      Return (dict_set mbox0 (dict_set ch msg t) msgs)).
      { unfold route_message, direct_message, _direct_message.
        rewrite Hdefault, Hlocal. simpl. by rewrite Hget. }
      rewrite Hstep. simpl. apply IH.
      apply dict_set_elem_keys. by left. }
  unfold route.
  assert (Hinit : mbox0 ∈ dict_keys (dict_fromkeys (K:=Mailbox) (V:=CHMsgDict)
                                        (local_mboxes cfg) [])).
  { apply dict_fromkeys_elem_keys. rewrite Hlocal. apply list_elem_of_here. }
  revert Hinit. generalize (dict_fromkeys (K:=Mailbox) (V:=CHMsgDict)
                              (local_mboxes cfg) []).
  induction (cloud_mboxes cfg) as [|mbox mboxes IH]; intros msgs Hkey.
  - simpl. eauto.
  - rewrite ofold_cons.
    destruct (Htotal (dict_items (messages mbox sh)) msgs Hkey)
      as (msgs' & -> & Hkey').
    simpl. by apply IH.
Qed.

(** C9.  The default policy answers with the first configured maildir and
    raises [IndexError] when there is none.  Under the default policy, with no
    maildir configured and a message in some cloud snapshot,
    [force_local_to_cloud] raises [IndexError] before it makes any call; so it
    returns only if a maildir is configured or every cloud snapshot is empty,
    and under that condition its routing loops do return. *)
Theorem default_policy_needs_a_maildir (cfg : Config) :
  direct_message_override cfg = None ->
  (forall msg,
     direct_message cfg msg =
     match local_mboxes cfg with
     | mbox :: _ => Return mbox
     | [] => Raise IndexError
     end) /\
  (forall st : State World,
     local_mboxes cfg = [] ->
     (exists mbox, mbox ∈ cloud_mboxes cfg /\ messages mbox (shared st) <> []) ->
     force_local_to_cloud cfg st = (Raise IndexError, st, [])) /\
  (forall (st : State World) msgs st' evs,
     force_local_to_cloud cfg st = (Return msgs, st', evs) ->
     local_mboxes cfg <> [] \/
     forall mbox, mbox ∈ cloud_mboxes cfg -> messages mbox (shared st) = []) /\
  (forall st : State World,
     (local_mboxes cfg <> [] \/
      forall mbox, mbox ∈ cloud_mboxes cfg -> messages mbox (shared st) = []) ->
     exists msgs, route cfg (shared st) = Return msgs).
Proof.
  intros Hdefault.
  assert (Hraises : forall st : State World,
             local_mboxes cfg = [] ->
             (exists mbox, mbox ∈ cloud_mboxes cfg /\
                           messages mbox (shared st) <> []) ->
             force_local_to_cloud cfg st = (Raise IndexError, st, [])).
  { intros st Hlocal Hsome. unfold force_local_to_cloud. rewrite bind_run.
    unfold lift, route. rewrite Hlocal. unfold dict_fromkeys. simpl.
    by rewrite route_without_maildir. }
  split_and!.
  - intros msg. unfold direct_message, _direct_message. rewrite Hdefault.
    by destruct (local_mboxes cfg).
  - exact Hraises.
  - intros st msgs st' evs Hrun.
    destruct (local_mboxes cfg) as [|mbox0 rest] eqn:Hlocal; [|by left].
    right. intros mbox Hin.
    destruct (messages mbox (shared st)) as [|item items] eqn:Hsnap; [done|].
    rewrite Hraises in Hrun; [done..|].
    exists mbox. split; [done|]. by rewrite Hsnap.
  - intros st [Hlocal|Hempty].
    + destruct (local_mboxes cfg) as [|mbox0 rest] eqn:Hl; [done|].
      by eapply route_with_maildir.
    + clear Hraises. unfold route.
      generalize (dict_fromkeys (K:=Mailbox) (V:=CHMsgDict)
                    (local_mboxes cfg) []).
      revert Hempty.
      induction (cloud_mboxes cfg) as [|mbox mboxes IH]; intros Hempty msgs.
      * simpl. eauto.
      * rewrite ofold_cons. unfold dict_items at 1.
        rewrite Hempty by apply list_elem_of_here. simpl.
        apply IH. intros mbox' Hin. apply Hempty. by apply list_elem_of_further.
Qed.

(** *** Teardown *)










End Proofs.

(** *** The engine on the scenarios *)

Import Scenarios.

(** The first iteration refreshes the dirty maildir, makes no merge call and
    forces the two cloud messages into the maildir. *)
Example first_iteration :
  cycles (@synchronize_mail unit (scripted inbox) one_cloud 1 start) =
  [[EvUpdateMessageList 0;
    EvSameMessages 0 [("k1", m1); ("k2", m2)] false;
    EvForceContent 0 [("k1", m1); ("k2", m2)];
    EvWait; EvClear;
    EvCleanupMsgs [(0, [("k1", m1); ("k2", m2)])];
    EvLogDebug "Changed event, looping"]].
Proof. reflexivity. Qed.

(** The second iteration pairs each routed message with what the maildir
    holds under its key, here nothing, and merges before it forces. *)
Example second_iteration :
  cycles (@synchronize_mail unit (scripted inbox) one_cloud 2 start) !! 1 =
  Some [EvUpdateMessageList 0;
        EvSameMessagesTuple 1 [("k1", (None, m1)); ("k2", (None, m2))] false;
        EvMergeContent 1 [("k1", (None, m1)); ("k2", (None, m2))];
        EvSameMessages 0 [("k1", m1); ("k2", m2)] false;
        EvForceContent 0 [("k1", m1); ("k2", m2)];
        EvWait; EvClear;
        EvCleanupMsgs [(0, [("k1", m1); ("k2", m2)])];
        EvLogDebug "Changed event, looping"].
Proof. reflexivity. Qed.

(** Subclasses of the listed classes are retried, lookup errors and
    cancellation are not. *)
Example retried_classes :
  except_matches retry_clause <$>
    [FileNotFoundError; ConnectionResetError; ClientConnectionError;
     AsyncioTimeoutError; RuntimeError; NotImplementedError;
     KeyError; IndexError; ValueError; CancelledError; KeyboardInterrupt] =
  [true; true; true; true; true; true; false; false; false; false; false].
Proof. reflexivity. Qed.

(** The specification lists the steps as refresh, route, merge, wait.  With
    one maildir and one cloud mailbox, the second iteration calls
    [merge_content] before [force_content]. *)
Lemma stated_order_counterexample :
  ~ Forall (in_steps stated_cycle_order)
      (cycles (@synchronize_mail unit (scripted inbox) one_cloud 2 start)) /\
  ~ Forall (calls_precede is_force_content is_merge_content)
      (cycles (@synchronize_mail unit (scripted inbox) one_cloud 2 start)).
Proof.
  assert (Hno : forall evs,
             cycles (@synchronize_mail unit (scripted inbox) one_cloud 2 start)
               !! 1 = Some evs ->
             ~ calls_precede is_force_content is_merge_content evs).
  { intros evs Hc Hp. vm_compute in Hc. injection Hc as <-.
    specialize (Hp 4 2 _ _ eq_refl eq_refl eq_refl eq_refl). lia. }
  destruct (cycles (@synchronize_mail unit (scripted inbox) one_cloud 2 start)
              !! 1) as [evs|] eqn:Hc; [|vm_compute in Hc; discriminate].
  split; intros Hall; apply (Hno evs eq_refl).
  - pose proof (Forall_lookup_1 _ _ _ _ Hall Hc) as Hsteps.
    eapply in_steps_precede; [exact Hsteps | |]; by intros [].
  - exact (Forall_lookup_1 _ _ _ _ Hall Hc).
Qed.

(** The specification lists four transient kinds and calls every other
    exception fatal.  A [RuntimeError] from [force_content] is none of the
    four, and the loop goes on after it. *)
Lemma stated_transient_counterexample :
  ~ @retries_exactly unit (scripted maildir_fails) stated_transient
      one_cloud None start.
Proof.
  intros Hr. specialize (Hr RuntimeError _ _ eq_refl).
  vm_compute in Hr. discriminate.
Qed.

Lemma retry_on_listed_exceptions_witness :
  (@iteration unit (scripted maildir_fails) one_cloud None start).1.1 =
  Continue None.
Proof.
  destruct (retry_on_listed_exceptions (H := scripted maildir_fails)
              one_cloud None start) as (Hr & _).
  specialize (Hr RuntimeError _ _ eq_refl).
  change (except_matches retry_clause RuntimeError) with true in Hr.
  by rewrite Hr.
Defined.

(** Two cloud mailboxes hold a message under the same content hash; both are
    routed to the one maildir, and the entry of the second replaces that of
    the first. *)
Lemma shared_hash_counterexample :
  ~ @routing_complete unit (scripted shared_hash) two_clouds start.
Proof.
  intros Hc.
  destruct (Hc _ _ _ eq_refl 1 "k1" m1) as (dest & Hdest & target & Houter & Hinner).
  - apply list_elem_of_here.
  - apply list_elem_of_here.
  - vm_compute in Hdest. injection Hdest as <-.
    vm_compute in Houter. injection Houter as <-.
    vm_compute in Hinner. discriminate.
Qed.

Lemma routing_completeness_witness :
  routed_to [(0, [("k1", m1); ("k2", m2)])] 0 "k1" m1.
Proof.
  destruct (routing_completeness (H := scripted inbox) one_cloud start
              _ _ _ eq_refl 1 "k1" m1) as (dest & Hdest & Hrouted).
  - apply list_elem_of_here.
  - apply list_elem_of_here.
  - intros mbox' msg' Hmbox Hitem _.
    apply list_elem_of_singleton in Hmbox as ->.
    apply elem_of_cons in Hitem as [[= ->]|Hitem]; [done|].
    apply list_elem_of_singleton in Hitem. discriminate.
  - vm_compute in Hdest. injection Hdest as <-. exact Hrouted.
Defined.



Lemma default_policy_needs_a_maildir_witness :
  @force_local_to_cloud unit (scripted inbox) no_maildir start =
  (Raise IndexError, start, []).
Proof.
  destruct (default_policy_needs_a_maildir (H := scripted inbox) no_maildir
              eq_refl) as (_ & Hraise & _).
  apply Hraise; [reflexivity|].
  exists 1. split; [apply list_elem_of_here | discriminate].
Defined.

End MainSpec.

(** * Further properties *)

(** ** Dictionaries and lists *)
Module PyDictMore.
Import PyDictFacts.

Section Facts.
Context {K V : Type} `{EqDecision K}.
Implicit Types (k : K) (v : V) (d : dict K V).

Lemma dict_elem_get k v d :
  NoDup (dict_keys d) -> (k, v) ∈ d -> dict_get k d = Some v.
Proof.
  unfold dict_keys. induction d as [|[k' v'] d IH]; simpl.
  - intros _ Hin. by apply elem_of_nil in Hin.
  - intros Hnd Hin. apply NoDup_cons in Hnd as [Hnotin Hnd].
    apply elem_of_cons in Hin as [[= -> ->]|Hin].
    + by rewrite decide_True.
    + destruct (decide (k = k')) as [->|Hne]; [|by apply IH].
      exfalso. apply Hnotin. apply list_elem_of_fmap. by exists (k', v).
Qed.



Lemma dict_del_comm k1 k2 d :
  dict_del k1 (dict_del k2 d) = dict_del k2 (dict_del k1 d).
Proof.
  induction d as [|[k0 v0] d IH]; simpl; [done|].
  destruct (decide (k2 = k0)) as [->|Hne2], (decide (k1 = k0)) as [->|Hne1];
    simpl; rewrite ?decide_True, ?decide_False by done; try done.
  by rewrite IH.
Qed.

Lemma dict_fromkeys_keys (ks : list K) v0 :
  NoDup ks -> dict_keys (dict_fromkeys ks v0) = ks.
Proof.
  unfold dict_fromkeys.
  assert (Hacc : forall d,
             NoDup (dict_keys d ++ ks) ->
             dict_keys (foldl (fun d k => dict_set k v0 d) d ks) =
             dict_keys d ++ ks).
  { induction ks as [|k0 ks IH]; intros d Hnd; simpl.
    - by rewrite app_nil_r.
    - assert (Hget : dict_get k0 d = None).
      { apply dict_get_None. apply NoDup_app in Hnd as (_ & Hdisj & _).
        intros Hin. apply (Hdisj _ Hin). apply list_elem_of_here. }
      rewrite IH.
      + rewrite dict_keys_set, Hget. by rewrite <- app_assoc.
      + rewrite dict_keys_set, Hget. by rewrite <- app_assoc. }
  intros Hnd. by apply (Hacc []).
Qed.

Lemma dict_fromkeys_lookup (ks : list K) v0 k :
  k ∈ ks -> dict_get k (dict_fromkeys ks v0) = Some v0.
Proof.
  intros Hin. apply (dict_fromkeys_elem_keys ks v0) in Hin.
  apply dict_get_is_Some in Hin as [v Hget].
  by rewrite Hget, (dict_fromkeys_get _ _ _ _ Hget).
Qed.

End Facts.



End PyDictMore.

(** ** The authentication broker, continued *)
Module OAuthMore.
Import OAuth PyDictFacts PyDictMore OAuthSpec.

(** *** What a callback does to the pending mapping *)







(** X2.  Handling the same callback request a second time changes nothing
    and gives the same answer: the entry is gone, so nothing is delivered
    twice. *)
Theorem replayed_callback_ignored (b : Broker) (query : Query) :
  reachable b ->
  _oauth2_msal query (_oauth2_msal query b).2 = _oauth2_msal query b.
Proof.
  intros Hinv%reachable_inv. unfold _oauth2_msal.
  destruct (dict_get "state" query) as [state|] eqn:Hstate; simpl; [|done].
  destruct (dict_get state (auth_redirs (server b))) as [[t q]|] eqn:Hget;
    simpl.
  - by rewrite dict_get_del_eq by apply Hinv.
  - by rewrite Hget.
Qed.

(** X3.  Callbacks for different state tokens can be handled in either
    order: the pending mapping and every queue end up the same. *)
Theorem callbacks_commute (b : Broker) (query1 query2 : Query) :
  reachable b ->
  state_of query1 ≠ state_of query2 ->
  (_oauth2_msal query2 (_oauth2_msal query1 b).2).2 =
  (_oauth2_msal query1 (_oauth2_msal query2 b).2).2.
Proof.
  intros Hinv%reachable_inv Hne. unfold state_of in Hne. unfold _oauth2_msal.
  destruct (dict_get "state" query1) as [s1|] eqn:Hs1,
           (dict_get "state" query2) as [s2|] eqn:Hs2;
    simpl; rewrite ?Hs1, ?Hs2; simpl; try done.
  assert (Hs : s1 ≠ s2) by congruence.
  destruct (dict_get s1 (auth_redirs (server b))) as [[t1 q1]|] eqn:Hget1,
           (dict_get s2 (auth_redirs (server b))) as [[t2 q2]|] eqn:Hget2;
    simpl; rewrite ?dict_get_del_ne by done; rewrite ?Hget1, ?Hget2; simpl;
    try done.
  assert (Hq : q1 ≠ q2).
  { intros ->.
    apply (removed_queue_not_pending b s1 t1 q2 Hinv Hget1).
    apply list_elem_of_fmap. exists (t2, q2). split; [done|].
    apply list_elem_of_fmap. exists (s2, (t2, q2)). split; [done|].
    apply dict_get_Some_elem. by rewrite dict_get_del_ne. }
  f_equal.
  - f_equal. apply dict_del_comm.
  - unfold put_nowait. by apply list_alter_alter_ne.
Qed.

(** *** Resolution happens once *)

Lemma handle_queues_short b r :
  broker_inv b ->
  (forall q items, queues b !! q = Some items ->
                   length items <= 1 /\
                   forall item, item ∈ items -> is_Some (state_of item)) ->
  forall q items, queues (handle b r) !! q = Some items ->
                  length items <= 1 /\
                  forall item, item ∈ items -> is_Some (state_of item).
Proof.
  intros Hinv Hshort q items. destruct r as [target state| |query]; simpl.
  - intros [Hq|[_ Hq]]%lookup_app_Some; [by eapply Hshort|].
    apply list_lookup_singleton_Some in Hq as [_ <-]. simpl. split; [lia|].
    intros item Hin. by apply elem_of_nil in Hin.
  - apply Hshort.
  - unfold _oauth2_msal.
    destruct (dict_get "state" query) as [state|] eqn:Hstate; [|apply Hshort].
    simpl.
    destruct (dict_get state (auth_redirs (server b))) as [[t q0]|] eqn:Hget;
      [|apply Hshort].
    simpl. unfold put_nowait. destruct (decide (q0 = q)) as [->|Hne].
    + rewrite list_lookup_alter_eq.
      assert (Hq : queues b !! q = Some []).
      { apply (inv_empty _ Hinv). eapply pending_of_get; eauto. }
      rewrite Hq. simpl. intros [= <-]. split; [simpl; lia|].
      intros item ->%list_elem_of_singleton. unfold state_of. by rewrite Hstate.
    + rewrite list_lookup_alter_ne by done. apply Hshort.
Qed.

(** X4.  However many requests the broker has served, and in whatever order,
    every queue holds at most one query, and a query it holds carries a
    [state] parameter: no caller is resumed twice. *)
Theorem resolved_at_most_once (rs : list Request) (q : QueueId)
    (items : list Query) :
  queues (run fresh rs) !! q = Some items ->
  length items <= 1 /\ forall item, item ∈ items -> is_Some (state_of item).
Proof.
  revert q items.
  induction rs as [|r rs IH] using rev_ind; intros q items.
  - done.
  - unfold run. rewrite foldl_app. simpl.
    apply handle_queues_short; [apply run_inv, fresh_inv | exact IH].
Qed.

(** *** The broker on the scenarios *)


Lemma replayed_callback_ignored_witness :
  _oauth2_msal Scenarios.callback_s1
    (_oauth2_msal Scenarios.callback_s1 Scenarios.two_pending).2 =
  _oauth2_msal Scenarios.callback_s1 Scenarios.two_pending.
Proof.
  apply replayed_callback_ignored. by exists Scenarios.two_logins.
Defined.

Lemma callbacks_commute_witness :
  (_oauth2_msal Scenarios.callback_s2
     (_oauth2_msal Scenarios.callback_s1 Scenarios.two_pending).2).2 =
  (_oauth2_msal Scenarios.callback_s1
     (_oauth2_msal Scenarios.callback_s2 Scenarios.two_pending).2).2.
Proof.
  apply callbacks_commute.
  - by exists Scenarios.two_logins.
  - discriminate.
Defined.

Lemma resolved_at_most_once_witness :
  length [Scenarios.callback_s1] <= 1 /\
  is_Some (state_of Scenarios.callback_s1).
Proof.
  destruct (resolved_at_most_once
              (Scenarios.two_logins ++ [GetCallback Scenarios.callback_s1])
              0 [Scenarios.callback_s1] eq_refl) as [Hlen Hall].
  split; [exact Hlen | apply Hall, list_elem_of_here].
Defined.

End OAuthMore.

(** ** The reconciliation engine, continued *)
Module MainMore.
Import Main MainTrace PyDictFacts PyDictMore MainSpec.

Section Proofs.
Context {World : Type} `{External World}.

#[local] Arguments force_if_differs : simpl never.

(** *** What routing puts into the targets *)

Lemma route_keys_same cfg (sh : Shared World) msgs :
  route cfg sh = Return msgs ->
  dict_keys msgs =
  dict_keys (dict_fromkeys (K:=Mailbox) (V:=CHMsgDict) (local_mboxes cfg) []).
Proof.
  unfold route.
  apply (ofold_inv (fun m : MBoxDict => dict_keys m = _)); [|done].
  intros acc mbox acc' Hacc.
  apply (ofold_inv (fun m : MBoxDict => dict_keys m = _)); [|done].
  intros b [ch msg] b' Hb (dest & msgdict & _ & Hget & ->)%route_message_inv.
  by rewrite dict_keys_set, Hget.
Qed.

Lemma route_items_sound cfg items (msgs0 msgs : MBoxDict) :
  ofold (route_message cfg) items msgs0 = Return msgs ->
  forall dest target ch m,
    dict_get dest msgs = Some target -> dict_get ch target = Some m ->
    (exists t0, dict_get dest msgs0 = Some t0 /\ dict_get ch t0 = Some m) \/
    ((ch, m) ∈ items /\ direct_message cfg m = Return dest).
Proof.
  revert msgs0. induction items as [|[ch1 m1] items IH]; intros msgs0;
    [simpl | rewrite ofold_cons].
  - intros [= <-]. eauto.
  - destruct (route_message cfg msgs0 (ch1, m1)) as [msgs1|e] eqn:Hstep;
      simpl; [|done].
    apply route_message_inv in Hstep as (dest1 & t1 & Hd1 & Hget1 & ->).
    intros Hfold dest target ch m Hdest Hch.
    destruct (IH _ Hfold dest target ch m Hdest Hch)
      as [(t0 & Hget0 & Hch0)|[Hin Hd]].
    + destruct (decide (dest1 = dest)) as [->|Hne].
      * rewrite dict_get_set_eq in Hget0. injection Hget0 as <-.
        destruct (decide (ch1 = ch)) as [->|Hnech].
        -- rewrite dict_get_set_eq in Hch0. injection Hch0 as <-.
           right. split; [apply list_elem_of_here | done].
        -- rewrite dict_get_set_ne in Hch0 by done. left. eauto.
      * rewrite dict_get_set_ne in Hget0 by done. left. eauto.
    + right. split; [by apply list_elem_of_further | done].
Qed.

(** X5.  Every entry of a target snapshot that [force_local_to_cloud] returns
    is an entry of some cloud snapshot, sits in the target of a configured
    local mailbox, and was sent there by the routing policy: no target holds
    a message routed elsewhere or a message from anywhere but the cloud. *)
Theorem targets_hold_only_routed_cloud_entries (cfg : Config)
    (st : State World) (msgs : MBoxDict) (st' : State World)
    (evs : list Event) :
  force_local_to_cloud cfg st = (Return msgs, st', evs) ->
  forall dest target ch msg,
    (dest, target) ∈ dict_items msgs ->
    (ch, msg) ∈ dict_items target ->
    dest ∈ local_mboxes cfg /\
    direct_message cfg msg = Return dest /\
    exists mbox, mbox ∈ cloud_mboxes cfg /\
                 (ch, msg) ∈ dict_items (messages mbox (shared st)).
Proof.
  intros Hrun%force_local_to_cloud_route dest target ch msg Hdest Hentry.
  unfold dict_items in Hdest, Hentry.
  pose proof (route_wf _ _ _ Hrun) as [Hnd Htargets].
  pose proof (route_keys_same _ _ _ Hrun) as Hkeys.
  apply dict_elem_get in Hdest as Hget; [|done].
  apply dict_elem_get in Hentry as Hch; [|by eapply Htargets].
  split.
  - apply (dict_fromkeys_elem_keys (local_mboxes cfg) ([] : CHMsgDict)).
    rewrite <- Hkeys. apply dict_get_is_Some. by rewrite Hget.
  - unfold route in Hrun. rewrite ofold_concat in Hrun.
    destruct (route_items_sound cfg _ _ _ Hrun dest target ch msg Hget Hch)
      as [(t0 & Hget0 & Hch0)|[Hin Hd]].
    + apply dict_fromkeys_get in Hget0 as ->. done.
    + split; [done|].
      apply list_elem_of_join in Hin as (items & Hin & Hitems).
      apply list_elem_of_fmap in Hitems as (mbox & -> & Hmbox). eauto.
Qed.

(** X6.  The mapping that [force_local_to_cloud] returns has exactly one
    target snapshot per configured local mailbox, also for a mailbox that no
    message is routed to; when no mailbox is configured twice the targets
    come in configuration order. *)
Theorem one_target_per_local_mailbox (cfg : Config) (st : State World)
    (msgs : MBoxDict) (st' : State World) (evs : list Event) :
  force_local_to_cloud cfg st = (Return msgs, st', evs) ->
  NoDup (dict_keys msgs) /\
  (forall mbox, mbox ∈ dict_keys msgs <-> mbox ∈ local_mboxes cfg) /\
  (NoDup (local_mboxes cfg) -> dict_keys msgs = local_mboxes cfg).
Proof.
  intros Hrun%force_local_to_cloud_route.
  pose proof (route_keys_same _ _ _ Hrun) as Hkeys. split_and!.
  - by eapply route_keys.
  - intros mbox. rewrite Hkeys. apply dict_fromkeys_elem_keys.
  - intros Hnd. rewrite Hkeys. by apply dict_fromkeys_keys.
Qed.

(** X7.  When every cloud snapshot is empty, or no cloud mailbox is
    configured, routing gives every local mailbox the empty snapshot as its
    target, and every comparison and every force call that follows is made
    with the empty snapshot. *)
Theorem empty_cloud_gives_empty_targets (cfg : Config) (st : State World) :
  (forall mbox, mbox ∈ cloud_mboxes cfg -> messages mbox (shared st) = []) ->
  route cfg (shared st) = Return (dict_fromkeys (local_mboxes cfg) []) /\
  forall ev, ev ∈ (force_local_to_cloud cfg st).2 ->
    exists mbox,
      mbox ∈ local_mboxes cfg /\
      (ev = EvForceContent mbox [] \/ exists same, ev = EvSameMessages mbox [] same).
Proof.
  intros Hempty.
  assert (Hroute : route cfg (shared st) =
                   Return (dict_fromkeys (local_mboxes cfg) [])).
  { unfold route.
    generalize (dict_fromkeys (K:=Mailbox) (V:=CHMsgDict) (local_mboxes cfg) []).
    revert Hempty.
    induction (cloud_mboxes cfg) as [|mbox mboxes IH]; intros Hempty msgs.
    - done.
    - rewrite ofold_cons. unfold dict_items at 1.
      rewrite Hempty by apply list_elem_of_here. simpl.
      apply IH. intros mbox' Hin. apply Hempty. by apply list_elem_of_further. }
  split; [done|]. intros ev.
  unfold force_local_to_cloud. rewrite bind_run. unfold lift.
  rewrite Hroute. simpl. rewrite bind_run.
  pose proof (for_each_force_trace
                (dict_items (dict_fromkeys (K:=Mailbox) (V:=CHMsgDict)
                               (local_mboxes cfg) [])) st) as Htrace.
  assert (Hev : forall evs1,
             force_trace (dict_items (dict_fromkeys (K:=Mailbox) (V:=CHMsgDict)
                                        (local_mboxes cfg) [])) evs1 ->
             ev ∈ evs1 ->
             exists mbox,
               mbox ∈ local_mboxes cfg /\
               (ev = EvForceContent mbox [] \/
                exists same, ev = EvSameMessages mbox [] same)).
  { intros evs1 Ht Hin.
    destruct (force_trace_elem _ _ _ Ht Hin) as (mbox & d & Hitem & Hev).
    unfold dict_items in Hitem.
    apply dict_elem_get in Hitem; [|apply dict_fromkeys_NoDup].
    assert (Hd : d = []) by by eapply dict_fromkeys_get.
    subst d. exists mbox. split; [|done].
    apply (dict_fromkeys_elem_keys (local_mboxes cfg) ([] : CHMsgDict)).
    apply dict_get_is_Some. by rewrite Hitem. }
  destruct (for_each force_if_differs _ st) as [[[[]|e] st1] evs1];
    simpl in *; rewrite ?app_nil_r; by apply Hev.
Qed.

(** *** When routing raises *)

Lemma route_message_keys cfg (msgs msgs' : MBoxDict) item :
  route_message cfg msgs item = Return msgs' -> dict_keys msgs' = dict_keys msgs.
Proof.
  destruct item as [ch msg].
  intros (dest & msgdict & _ & Hget & ->)%route_message_inv.
  by rewrite dict_keys_set, Hget.
Qed.

Lemma route_items_misrouted cfg items (msgs0 : MBoxDict) ch msg dest :
  (ch, msg) ∈ items -> direct_message cfg msg = Return dest ->
  dest ∉ dict_keys msgs0 ->
  exists e,
    ofold (route_message cfg) items msgs0 = Raise e /\
    ((forall msg', exists dest', direct_message cfg msg' = Return dest') ->
     e = KeyError).
Proof.
  intros Hin Hdest. revert msgs0.
  induction items as [|[ch1 m1] items IH]; intros msgs0 Hnot.
  - by apply elem_of_nil in Hin.
  - rewrite ofold_cons.
    destruct (route_message cfg msgs0 (ch1, m1)) as [msgs1|e] eqn:Hstep; simpl.
    + apply route_message_keys in Hstep as Hkeys.
      apply elem_of_cons in Hin as [[= <- <-]|Hin].
      * apply route_message_inv in Hstep as (d & t & Hd & Hget & _).
        exfalso. apply Hnot. apply dict_get_is_Some.
        rewrite Hdest in Hd. injection Hd as <-. by rewrite Hget.
      * apply IH; [done|]. by rewrite Hkeys.
    + exists e. split; [done|]. intros Htotal.
      unfold route_message in Hstep. destruct (Htotal m1) as [d Hd].
      rewrite Hd in Hstep. simpl in Hstep.
      destruct (dict_get d msgs0); [done|]. by injection Hstep as <-.
Qed.

(** X8.  When the routing policy sends some cloud message to a mailbox that
    is not among the configured local mailboxes, [force_local_to_cloud]
    raises before it compares or forces any mailbox; with a policy that
    itself never raises the exception is a [KeyError]. *)
Theorem misrouting_raises_before_any_call (cfg : Config) (st : State World)
    (mbox : Mailbox) (ch : ContentHash) (msg : Message) (dest : Mailbox) :
  mbox ∈ cloud_mboxes cfg ->
  (ch, msg) ∈ dict_items (messages mbox (shared st)) ->
  direct_message cfg msg = Return dest ->
  dest ∉ local_mboxes cfg ->
  exists e,
    force_local_to_cloud cfg st = (Raise e, st, []) /\
    ((forall msg', exists dest', direct_message cfg msg' = Return dest') ->
     e = KeyError).
Proof.
  intros Hmbox Hitem Hdest Hnot.
  destruct (route_items_misrouted cfg
              (mjoin ((fun mbox => dict_items (messages mbox (shared st)))
                      <$> cloud_mboxes cfg))
              (dict_fromkeys (local_mboxes cfg) []) ch msg dest)
    as (e & Hfold & He); [|done| |].
  - apply list_elem_of_join. exists (dict_items (messages mbox (shared st))).
    split; [done|]. by eapply list_elem_of_fmap_2'.
  - by rewrite dict_fromkeys_elem_keys.
  - exists e. split; [|done].
    unfold force_local_to_cloud. rewrite bind_run. unfold lift, route.
    rewrite ofold_concat. by rewrite Hfold.
Qed.

(** *** The loop over the targets *)

Lemma for_each_force_raises items (st st' : State World) e evs :
  for_each force_if_differs items st = (Raise e, st', evs) ->
  exists reached mbox d rest evs0 st0,
    items = reached ++ (mbox, d) :: rest /\
    evs = evs0 ++ [EvSameMessages mbox d false; EvForceContent mbox d] /\
    force_trace reached evs0 /\
    (force_content mbox d (shared st0)).1 = Raise e.
Proof.
  revert st evs. induction items as [|[mbox d] items IH]; intros st evs.
  - done.
  - simpl. rewrite bind_run. unfold force_if_differs at 1.
    destruct (same_messages mbox (shared st) d) eqn:Hsame; simpl.
    + destruct (for_each force_if_differs items st) as [[o1 st1] evs1] eqn:Hrest.
      simpl. intros [= -> -> <-].
      destruct (IH _ _ Hrest)
        as (reached & mbox' & d' & rest & evs0 & st0 & -> & -> & Ht & Hf).
      exists ((mbox, d) :: reached), mbox', d', rest,
        (EvSameMessages mbox d true :: evs0), st0.
      split_and!; try done. by constructor.
    + unfold call.
      destruct (force_content mbox d (shared st)) as [[[]|e1] sh1] eqn:Hforce;
        simpl.
      * destruct (for_each force_if_differs items _) as [[o1 st1] evs1] eqn:Hrest.
        simpl. intros [= -> -> <-].
        destruct (IH _ _ Hrest)
          as (reached & mbox' & d' & rest & evs0 & st0 & -> & -> & Ht & Hf).
        exists ((mbox, d) :: reached), mbox', d', rest,
          (EvSameMessages mbox d false :: EvForceContent mbox d :: evs0), st0.
        split_and!; try done. by constructor.
      * intros [= -> <- <-].
        exists [], mbox, d, items, [], st. split_and!; try done.
        -- constructor.
        -- by rewrite Hforce.
Qed.

(** X9.  When [force_content] raises for a local mailbox, the loop of
    [force_local_to_cloud] stops there: the last call made is that
    [force_content], and the mailboxes that come later in the mapping are
    neither compared nor forced. *)
Theorem force_failure_stops_the_loop (cfg : Config) (st st' : State World)
    (msgs : MBoxDict) (e : ExcClass) (evs : list Event) :
  route cfg (shared st) = Return msgs ->
  force_local_to_cloud cfg st = (Raise e, st', evs) ->
  exists reached mbox d rest,
    dict_items msgs = reached ++ (mbox, d) :: rest /\
    last evs = Some (EvForceContent mbox d) /\
    (exists st0, (force_content mbox d (shared st0)).1 = Raise e) /\
    forall mbox' d', (mbox', d') ∈ rest ->
      forall d'', (EvForceContent mbox' d'' ∉ evs) /\
                  forall same, EvSameMessages mbox' d'' same ∉ evs.
Proof.
  intros Hroute. pose proof (route_keys _ _ _ Hroute) as Hnd.
  unfold force_local_to_cloud. rewrite bind_run. unfold lift.
  rewrite Hroute. simpl. rewrite bind_run.
  destruct (for_each force_if_differs (dict_items msgs) st)
    as [[[[]|e1] st1] evs1] eqn:Hloop; simpl; [done|].
  intros [= -> -> <-].
  destruct (for_each_force_raises _ _ _ _ _ Hloop)
    as (reached & mbox & d & rest & evs0 & st0 & Hitems & -> & Ht & Hf).
  exists reached, mbox, d, rest. split_and!; [done| |by exists st0|].
  - replace (evs0 ++ [EvSameMessages mbox d false; EvForceContent mbox d])
      with ((evs0 ++ [EvSameMessages mbox d false]) ++ [EvForceContent mbox d])
      by (by rewrite <- app_assoc).
    apply last_snoc.
  - intros mbox' d' Hrest d''.
    unfold dict_keys, dict_items in *. rewrite Hitems in Hnd.
    rewrite fmap_app, fmap_cons in Hnd.
    apply NoDup_app in Hnd as (_ & Hdisj & [Hnot _]%NoDup_cons).
    assert (Hkey : mbox' ∈ rest.*1).
    { apply list_elem_of_fmap. by exists (mbox', d'). }
    assert (Hne : mbox' ≠ mbox) by (intros ->; done).
    assert (Hreached : forall ev, ev ∈ evs0 ->
               (ev = EvForceContent mbox' d'' \/
                exists same, ev = EvSameMessages mbox' d'' same) -> False).
    { intros ev Hin Hev.
      destruct (force_trace_elem _ _ _ Ht Hin) as (m1 & d1 & Hitem & Hev1).
      apply (Hdisj m1).
      - apply list_elem_of_fmap. by exists (m1, d1).
      - simpl. apply list_elem_of_further.
        destruct Hev as [->|[same ->]], Hev1 as [[=]|[same1 [=]]]; by subst. }
    split; [|intros same];
      rewrite elem_of_app, !elem_of_cons, elem_of_nil;
      intros [Hin|[[=]|[[=]|[]]]]; try done; eapply Hreached; eauto.
Qed.

(** *** A cycle with nothing to do *)

Lemma refresh_idle cfg (st : State World) :
  (forall mbox, mbox ∈ all_mboxes cfg -> need_update mbox (shared st) = false) ->
  refresh cfg st = (Return tt, st, []).
Proof.
  intros Hclean. unfold refresh.
  replace (List.filter (fun mbox => need_update mbox (shared st)) (all_mboxes cfg))
    with (@nil Mailbox); [done|].
  revert Hclean. induction (all_mboxes cfg) as [|mbox l IH]; intros Hclean.
  - done.
  - simpl. rewrite Hclean by apply list_elem_of_here.
    apply IH. intros mbox' Hin. by apply Hclean, list_elem_of_further.
Qed.

Lemma for_each_idle items (st : State World) :
  (forall mbox d, (mbox, d) ∈ items -> same_messages mbox (shared st) d = true) ->
  for_each force_if_differs items st =
  (Return tt, st, (fun entry => EvSameMessages entry.1 entry.2 true) <$> items).
Proof.
  induction items as [|[mbox d] items IH]; intros Hsame.
  - done.
  - simpl. rewrite bind_run. unfold force_if_differs at 1.
    rewrite Hsame by apply list_elem_of_here. simpl.
    rewrite IH; [done|]. intros mbox' d' Hin.
    by apply Hsame, list_elem_of_further.
Qed.

Lemma update_idle cfg prev by_cloud (st : State World) :
  group_by_cloud cfg (shared st) prev = Return by_cloud ->
  (forall c td, (c, td) ∈ by_cloud ->
                same_messages_tuple c (shared st) td = true) ->
  update_cloud_from_local cfg prev st =
  (Return tt, st,
   (fun entry => EvSameMessagesTuple entry.1 entry.2 true) <$> by_cloud).
Proof.
  intros Hgroup Hsame. unfold update_cloud_from_local. rewrite Hgroup.
  unfold dict_items.
  assert (Hcompared :
            (fun entry : Mailbox * CHMsgMappingDict =>
               (entry, same_messages_tuple entry.1 (shared st) entry.2))
            <$> by_cloud = (fun entry => (entry, true)) <$> by_cloud).
  { apply list_fmap_ext. intros i [c td] Hi. simpl. f_equal.
    apply Hsame. eapply list_elem_of_lookup_2; eauto. }
  rewrite Hcompared.
  replace (List.filter (fun c : Mailbox * CHMsgMappingDict * bool => negb c.2)
             ((fun entry => (entry, true)) <$> by_cloud))
    with (@nil (Mailbox * CHMsgMappingDict * bool)).
  - simpl. rewrite app_nil_r. by rewrite <- list_fmap_compose.
  - clear. induction by_cloud as [|entry l IH]; [done|]. by rewrite fmap_cons.
Qed.

(** X10.  An iteration that finds no mailbox dirty and in which every
    comparison reports equality makes no [update_message_list],
    [merge_content] or [force_content] call: the body of the loop returns the
    routing result, leaves the shared state as it found it, and has made one
    comparison per cloud mailbox and one per local mailbox. *)
Theorem idle_cycle_changes_nothing (cfg : Config) (st : State World)
    (prev msgs : MBoxDict) (by_cloud : dict Mailbox CHMsgMappingDict) :
  (forall mbox, mbox ∈ all_mboxes cfg -> need_update mbox (shared st) = false) ->
  group_by_cloud cfg (shared st) prev = Return by_cloud ->
  (forall c td, (c, td) ∈ by_cloud ->
                same_messages_tuple c (shared st) td = true) ->
  route cfg (shared st) = Return msgs ->
  (forall mbox d, (mbox, d) ∈ msgs -> same_messages mbox (shared st) d = true) ->
  cycle_body cfg (Some prev) st =
  (Return msgs, st,
   ((fun entry => EvSameMessagesTuple entry.1 entry.2 true) <$> by_cloud) ++
   ((fun entry => EvSameMessages entry.1 entry.2 true) <$> msgs)).
Proof.
  intros Hclean Hgroup Htuple Hroute Hsame.
  unfold cycle_body. rewrite bind_run, refresh_idle by done. simpl.
  rewrite bind_run, (update_idle _ _ _ _ Hgroup Htuple). simpl.
  unfold force_local_to_cloud. rewrite bind_run. unfold lift.
  rewrite Hroute. simpl. rewrite bind_run.
  rewrite for_each_idle by done. simpl. by rewrite app_nil_r.
Qed.

(** *** The default policy with several local mailboxes *)

Lemma route_items_mono cfg items (msgs0 msgs : MBoxDict) dest t0 :
  ofold (route_message cfg) items msgs0 = Return msgs ->
  dict_get dest msgs0 = Some t0 ->
  exists t, dict_get dest msgs = Some t /\
            forall ch, ch ∈ dict_keys t0 -> ch ∈ dict_keys t.
Proof.
  revert msgs0 t0. induction items as [|[ch1 m1] items IH]; intros msgs0 t0;
    [simpl | rewrite ofold_cons].
  - intros [= <-]. eauto.
  - destruct (route_message cfg msgs0 (ch1, m1)) as [msgs1|e] eqn:Hstep;
      simpl; [|done].
    apply route_message_inv in Hstep as (dest1 & t1 & Hd1 & Hget1 & ->).
    intros Hfold Hget. destruct (decide (dest1 = dest)) as [->|Hne].
    + destruct (IH _ (dict_set ch1 m1 t0) Hfold) as (t & Hget' & Hsub).
      { rewrite dict_get_set_eq. congruence. }
      exists t. split; [done|]. intros ch Hch. apply Hsub.
      apply dict_set_elem_keys. by right.
    + apply (IH _ t0 Hfold). by rewrite dict_get_set_ne.
Qed.

Lemma route_items_present cfg items (msgs0 msgs : MBoxDict) ch m dest :
  ofold (route_message cfg) items msgs0 = Return msgs ->
  (ch, m) ∈ items -> direct_message cfg m = Return dest ->
  exists t, dict_get dest msgs = Some t /\ ch ∈ dict_keys t.
Proof.
  revert msgs0. induction items as [|[ch1 m1] items IH]; intros msgs0;
    [simpl | rewrite ofold_cons].
  - intros _ Hin. by apply elem_of_nil in Hin.
  - destruct (route_message cfg msgs0 (ch1, m1)) as [msgs1|e] eqn:Hstep;
      simpl; [|done].
    intros Hfold [[= <- <-]|Hin]%elem_of_cons Hdest; [|by eapply IH].
    apply route_message_inv in Hstep as (dest1 & t1 & Hd1 & Hget1 & ->).
    assert (dest1 = dest) as -> by congruence.
    destruct (route_items_mono cfg items _ msgs dest (dict_set ch m t1) Hfold)
      as (t & Hget & Hsub).
    { apply dict_get_set_eq. }
    exists t. split; [done|]. apply Hsub. apply dict_set_elem_keys. by left.
Qed.

(** X11.  Under the default policy only the first configured local mailbox
    receives mail: its target snapshot has an entry under every key of every
    cloud snapshot and under no other key, and the target snapshot of every
    other local mailbox is empty. *)
Theorem default_policy_fills_first_maildir_only (cfg : Config)
    (st : State World) (first : Mailbox) (others : list Mailbox)
    (msgs : MBoxDict) (st' : State World) (evs : list Event) :
  direct_message_override cfg = None ->
  local_mboxes cfg = first :: others ->
  force_local_to_cloud cfg st = (Return msgs, st', evs) ->
  (exists target,
     dict_get first msgs = Some target /\
     forall ch, ch ∈ dict_keys target <->
                exists mbox, mbox ∈ cloud_mboxes cfg /\
                             ch ∈ dict_keys (messages mbox (shared st))) /\
  (forall mbox, mbox ∈ others -> mbox ≠ first -> dict_get mbox msgs = Some []).
Proof.
  intros Hdefault Hlocal Hrun%force_local_to_cloud_route.
  assert (Hpolicy : forall m, direct_message cfg m = Return first).
  { intros m. unfold direct_message, _direct_message.
    by rewrite Hdefault, Hlocal. }
  pose proof (route_keys_same _ _ _ Hrun) as Hkeys.
  assert (Hhas : forall mbox, mbox ∈ local_mboxes cfg ->
                              exists t, dict_get mbox msgs = Some t).
  { intros mbox Hin. apply dict_get_is_Some. rewrite Hkeys.
    by apply dict_fromkeys_elem_keys. }
  unfold route in Hrun. rewrite ofold_concat in Hrun.
  assert (Hsound : forall dest target ch m,
             dict_get dest msgs = Some target -> dict_get ch target = Some m ->
             dest = first /\
             exists mbox, mbox ∈ cloud_mboxes cfg /\
                          (ch, m) ∈ dict_items (messages mbox (shared st))).
  { intros dest target ch m Hdest Hch.
    destruct (route_items_sound cfg _ _ _ Hrun dest target ch m Hdest Hch)
      as [(t0 & Hget0 & Hch0)|[Hin Hd]].
    - apply dict_fromkeys_get in Hget0 as ->. done.
    - rewrite Hpolicy in Hd. injection Hd as <-. split; [done|].
      apply list_elem_of_join in Hin as (items & Hin & Hitems).
      apply list_elem_of_fmap in Hitems as (mbox & -> & Hmbox). eauto. }
  split.
  - destruct (Hhas first) as [target Hget].
    { rewrite Hlocal. apply list_elem_of_here. }
    exists target. split; [done|]. intros ch. split.
    + intros [m Hch]%dict_get_is_Some.
      destruct (Hsound _ _ _ _ Hget Hch) as (_ & mbox & Hmbox & Hin).
      exists mbox. split; [done|]. unfold dict_keys, dict_items in *.
      apply list_elem_of_fmap. by exists (ch, m).
    + intros (mbox & Hmbox & Hch). unfold dict_keys in Hch.
      apply list_elem_of_fmap in Hch as ([ch' m] & -> & Hin).
      destruct (route_items_present cfg _ _ msgs ch' m first Hrun)
        as (t & Hget' & Hkey); [|done|].
      * apply list_elem_of_join. exists (dict_items (messages mbox (shared st))).
        split; [done|]. by eapply list_elem_of_fmap_2'.
      * simpl. congruence.
  - intros mbox Hin Hne. destruct (Hhas mbox) as [[|[ch m] t] Hget].
    { rewrite Hlocal. by apply list_elem_of_further. }
    + done.
    + exfalso. apply Hne.
      apply (Hsound mbox ((ch, m) :: t) ch m Hget). simpl.
      by rewrite decide_True.
Qed.

(** *** What [update_cloud_from_local] hands to the cloud mailboxes *)

Lemma ofold_inv_elem {A B} (P : B -> Prop) (f : B -> A -> Outcome B) l b b' :
  (forall b a b', a ∈ l -> P b -> f b a = Return b' -> P b') ->
  P b -> ofold f l b = Return b' -> P b'.
Proof.
  revert b. induction l as [|a l IH]; intros b Hstep Hb; simpl.
  - by intros [= <-].
  - destruct (f b a) as [b1|e] eqn:Hf; simpl; [|done].
    apply IH.
    + intros b0 a0 b0' Hin. apply Hstep. by apply list_elem_of_further.
    + eapply Hstep; [apply list_elem_of_here | done | done].
Qed.

Lemma group_message_inv (sh : Shared World) local_mbox acc acc' ch cloud_msg :
  group_message sh local_mbox acc (ch, cloud_msg) = Return acc' ->
  exists td,
    dict_get (mailbox cloud_msg) acc = Some td /\
    acc' = dict_set (mailbox cloud_msg)
             (dict_set ch (dict_get ch (messages local_mbox sh), cloud_msg) td)
             acc.
Proof.
  unfold group_message.
  destruct (dict_get (mailbox cloud_msg) acc) as [td|]; [|done].
  intros [= <-]. eauto.
Qed.

Lemma group_items_keys (sh : Shared World) local_mbox items acc0 acc :
  ofold (group_message sh local_mbox) items acc0 = Return acc ->
  dict_keys acc = dict_keys acc0 /\
  forall ch cloud_msg, (ch, cloud_msg) ∈ items ->
                       mailbox cloud_msg ∈ dict_keys acc0.
Proof.
  revert acc0. induction items as [|[ch1 m1] items IH]; intros acc0;
    [simpl | rewrite ofold_cons].
  - intros [= <-]. split; [done|]. intros ch m Hin.
    by apply elem_of_nil in Hin.
  - destruct (group_message sh local_mbox acc0 (ch1, m1)) as [acc1|e] eqn:Hstep;
      simpl; [|done].
    apply group_message_inv in Hstep as (td & Hget & ->).
    intros [Hkeys Hitems]%IH. rewrite dict_keys_set, Hget in Hkeys, Hitems.
    split; [done|].
    intros ch m [[= -> ->]|Hin]%elem_of_cons; [|by eapply Hitems].
    apply dict_get_is_Some. by rewrite Hget.
Qed.

Lemma group_items_raise (sh : Shared World) local_mbox items acc0 e :
  ofold (group_message sh local_mbox) items acc0 = Raise e -> e = KeyError.
Proof.
  revert acc0. induction items as [|[ch1 m1] items IH]; intros acc0;
    [done | rewrite ofold_cons].
  destruct (group_message sh local_mbox acc0 (ch1, m1)) as [acc1|e1] eqn:Hstep;
    simpl; [by apply IH|].
  unfold group_message in Hstep.
  destruct (dict_get (mailbox m1) acc0); [done|]. congruence.
Qed.

Lemma group_items_sound (sh : Shared World) local_mbox items acc0 acc :
  ofold (group_message sh local_mbox) items acc0 = Return acc ->
  forall c td ch local_msg cloud_msg,
    dict_get c acc = Some td -> dict_get ch td = Some (local_msg, cloud_msg) ->
    (exists t0, dict_get c acc0 = Some t0 /\
                dict_get ch t0 = Some (local_msg, cloud_msg)) \/
    ((ch, cloud_msg) ∈ items /\ mailbox cloud_msg = c /\
     local_msg = dict_get ch (messages local_mbox sh)).
Proof.
  revert acc0. induction items as [|[ch1 m1] items IH]; intros acc0;
    [simpl | rewrite ofold_cons].
  - intros [= <-]. eauto.
  - destruct (group_message sh local_mbox acc0 (ch1, m1)) as [acc1|e] eqn:Hstep;
      simpl; [|done].
    apply group_message_inv in Hstep as (t1 & Hget1 & ->).
    intros Hfold c td ch local_msg cloud_msg Hc Hch.
    destruct (IH _ Hfold c td ch local_msg cloud_msg Hc Hch)
      as [(t0 & Hget0 & Hch0)|(Hin & Hmb & Hl)].
    + destruct (decide (mailbox m1 = c)) as [<-|Hne].
      * rewrite dict_get_set_eq in Hget0. injection Hget0 as <-.
        destruct (decide (ch1 = ch)) as [->|Hnech].
        -- rewrite dict_get_set_eq in Hch0. injection Hch0 as <- <-.
           right. split; [apply list_elem_of_here | done].
        -- rewrite dict_get_set_ne in Hch0 by done. left. eauto.
      * rewrite dict_get_set_ne in Hget0 by done. left. eauto.
    + right. split; [by apply list_elem_of_further | done].
Qed.

(** What a successful grouping of [prev] looks like. *)
Lemma group_by_cloud_inv cfg (sh : Shared World) prev by_cloud :
  group_by_cloud cfg sh prev = Return by_cloud ->
  dict_keys by_cloud =
  dict_keys (dict_fromkeys (K:=Mailbox) (V:=CHMsgMappingDict)
               (cloud_mboxes cfg) []) /\
  (forall local_mbox target ch cloud_msg,
     (local_mbox, target) ∈ prev -> (ch, cloud_msg) ∈ target ->
     mailbox cloud_msg ∈ cloud_mboxes cfg) /\
  (forall c td ch local_msg cloud_msg,
     dict_get c by_cloud = Some td ->
     dict_get ch td = Some (local_msg, cloud_msg) ->
     mailbox cloud_msg = c /\
     exists local_mbox target,
       (local_mbox, target) ∈ prev /\ (ch, cloud_msg) ∈ target /\
       local_msg = dict_get ch (messages local_mbox sh)).
Proof.
  unfold group_by_cloud, dict_items.
  set (init := dict_fromkeys (K:=Mailbox) (V:=CHMsgMappingDict)
                 (cloud_mboxes cfg) []).
  intros Hfold.
  assert (Hkeys : dict_keys by_cloud = dict_keys init).
  { revert Hfold.
    apply (ofold_inv (fun m : dict Mailbox CHMsgMappingDict =>
                        dict_keys m = dict_keys init)); [|done].
    intros acc entry acc' Hacc [Hk _]%group_items_keys. congruence. }
  split_and!; [done| |].
  - intros local_mbox target ch cloud_msg Hentry Hin.
    apply (dict_fromkeys_elem_keys (cloud_mboxes cfg) ([] : CHMsgMappingDict)).
    fold init. revert Hfold Hentry. generalize init. clear Hkeys.
    induction prev as [|entry prev IH]; intros acc0 Hfold Hentry.
    { by apply elem_of_nil in Hentry. }
    rewrite ofold_cons in Hfold.
    destruct (ofold (group_message sh entry.1) entry.2 acc0) as [acc1|e]
      eqn:Hinner; simpl in Hfold; [|done].
    apply group_items_keys in Hinner as [Hk Hitems].
    apply elem_of_cons in Hentry as [<-|Hentry].
    + by eapply Hitems.
    + rewrite <- Hk. by eapply IH.
  - revert Hfold.
    apply (ofold_inv_elem
             (fun m : dict Mailbox CHMsgMappingDict =>
                forall c td ch local_msg cloud_msg,
                  dict_get c m = Some td ->
                  dict_get ch td = Some (local_msg, cloud_msg) ->
                  mailbox cloud_msg = c /\
                  exists local_mbox target,
                    (local_mbox, target) ∈ prev /\ (ch, cloud_msg) ∈ target /\
                    local_msg = dict_get ch (messages local_mbox sh))).
    + intros acc [local_mbox target] acc' Hentry Hacc Hinner
        c td ch local_msg cloud_msg Hc Hch.
      destruct (group_items_sound _ _ _ _ _ Hinner c td ch local_msg cloud_msg
                  Hc Hch) as [(t0 & Hget0 & Hch0)|(Hin & Hmb & Hl)].
      * by eapply Hacc.
      * split; [done|]. by exists local_mbox, target.
    + intros c td ch local_msg cloud_msg Hc Hch.
      apply dict_fromkeys_get in Hc as ->. done.
Qed.

Lemma group_by_cloud_raise cfg (sh : Shared World) prev e :
  group_by_cloud cfg sh prev = Raise e -> e = KeyError.
Proof.
  unfold group_by_cloud.
  generalize (dict_fromkeys (K:=Mailbox) (V:=CHMsgMappingDict)
                (cloud_mboxes cfg) []).
  induction (dict_items prev) as [|entry l IH]; intros acc0; [done|].
  rewrite ofold_cons.
  destruct (ofold (group_message sh entry.1) (dict_items entry.2) acc0)
    as [acc1|e1] eqn:Hinner; simpl; [by apply IH|].
  intros [= <-]. by eapply group_items_raise.
Qed.

(** The calls of [update_cloud_from_local], written out. *)
Lemma update_events_eq cfg prev by_cloud (st : State World) :
  group_by_cloud cfg (shared st) prev = Return by_cloud ->
  (update_cloud_from_local cfg prev st).2 =
  ((fun entry => EvSameMessagesTuple entry.1 entry.2
                   (same_messages_tuple entry.1 (shared st) entry.2))
   <$> by_cloud) ++
  ((fun entry => EvMergeContent entry.1 entry.2)
   <$> filter (fun entry =>
                 same_messages_tuple entry.1 (shared st) entry.2 = false)
         by_cloud).
Proof.
  intros Hgroup. unfold update_cloud_from_local. rewrite Hgroup.
  pose proof (gather_calls_events
                (fun c : Mailbox * CHMsgMappingDict * bool =>
                   EvMergeContent c.1.1 c.1.2)
                (fun c => merge_content c.1.1 c.1.2)) as Hev.
  match goal with
  | |- context [gather (?f <$> ?l) st] =>
      specialize (Hev l st); destruct (gather (f <$> l) st) as [[o st1] evs]
  end.
  simpl in *. subst evs. unfold dict_items.
  rewrite <- list_fmap_compose. f_equal.
  clear. induction by_cloud as [|[c td] l IH]; [done|].
  rewrite fmap_cons. simpl.
  destruct (same_messages_tuple c (shared st) td) eqn:Hsame; simpl.
  - rewrite filter_cons_False by (simpl; congruence). apply IH.
  - rewrite filter_cons_True by done. rewrite fmap_cons. simpl. f_equal.
    apply IH.
Qed.

(** X12.  Every mapping that [update_cloud_from_local] compares with, or
    merges into, a cloud mailbox holds only records of that mailbox: each
    entry pairs a message that the previous routing placed in some local
    target, whose [mailbox] is this cloud mailbox, with what the local
    mailbox it was routed to now holds under the same content hash, or with
    nothing when it holds none. *)
Theorem merge_pairs_cloud_record_with_local (cfg : Config) (prev : MBoxDict)
    (st : State World) (ev : Event) (c : Mailbox) (td : CHMsgMappingDict) :
  ev ∈ (update_cloud_from_local cfg prev st).2 ->
  ev = EvMergeContent c td \/ (exists same, ev = EvSameMessagesTuple c td same) ->
  c ∈ cloud_mboxes cfg /\
  forall ch local_msg cloud_msg,
    dict_get ch td = Some (local_msg, cloud_msg) ->
    mailbox cloud_msg = c /\
    exists local_mbox target,
      (local_mbox, target) ∈ dict_items prev /\
      (ch, cloud_msg) ∈ dict_items target /\
      local_msg = dict_get ch (messages local_mbox (shared st)).
Proof.
  intros Hev Hkind.
  destruct (group_by_cloud cfg (shared st) prev) as [by_cloud|e] eqn:Hgroup.
  - rewrite (update_events_eq _ _ _ _ Hgroup) in Hev.
    pose proof (group_keys _ _ _ _ Hgroup) as Hnd.
    apply group_by_cloud_inv in Hgroup as (Hkeys & _ & Hsound).
    assert (Hin : (c, td) ∈ by_cloud).
    { apply elem_of_app in Hev as [Hev|Hev];
        apply list_elem_of_fmap in Hev as ([c' td'] & Heq & Hin);
        [|apply list_elem_of_filter in Hin as [_ Hin]];
        destruct Hkind as [->|[same ->]]; simpl in Heq; congruence. }
    apply dict_elem_get in Hin as Hget; [|done]. split.
    + apply (dict_fromkeys_elem_keys (cloud_mboxes cfg) ([] : CHMsgMappingDict)).
      rewrite <- Hkeys. apply dict_get_is_Some. by rewrite Hget.
    + intros ch local_msg cloud_msg Hch. by eapply Hsound.
  - unfold update_cloud_from_local in Hev. rewrite Hgroup in Hev.
    by apply elem_of_nil in Hev.
Qed.

(** X13.  When the mapping of the previous routing holds a message whose
    [mailbox] is not a configured cloud mailbox, [update_cloud_from_local]
    raises [KeyError] before any comparison or merge and leaves the state as
    it was; the loop does not retry this: the iteration leaves the loop with
    [KeyError] right after the refreshes. *)
Theorem foreign_message_stops_the_loop (cfg : Config) (prev : MBoxDict)
    (st : State World) (local_mbox : Mailbox) (target : CHMsgDict)
    (ch : ContentHash) (cloud_msg : Message) :
  (local_mbox, target) ∈ dict_items prev ->
  (ch, cloud_msg) ∈ dict_items target ->
  mailbox cloud_msg ∉ cloud_mboxes cfg ->
  update_cloud_from_local cfg prev st = (Raise KeyError, st, []) /\
  forall st1 evs1,
    refresh cfg st = (Return tt, st1, evs1) ->
    iteration cfg (Some prev) st = (Stop KeyError, st1, evs1).
Proof.
  intros Hentry Hin Hforeign.
  assert (Hraise : forall st0 : State World,
             update_cloud_from_local cfg prev st0 = (Raise KeyError, st0, [])).
  { intros st0. unfold update_cloud_from_local.
    destruct (group_by_cloud cfg (shared st0) prev) as [by_cloud|e] eqn:Hgroup.
    - apply group_by_cloud_inv in Hgroup as (_ & Hall & _).
      exfalso. apply Hforeign. by eapply Hall.
    - by apply group_by_cloud_raise in Hgroup as ->. }
  split; [done|]. intros st1 evs1 Hrefresh.
  unfold iteration, cycle_body. rewrite bind_run, Hrefresh.
  rewrite bind_run, Hraise. simpl. by rewrite app_nil_r.
Qed.

Lemma group_items_returns (sh : Shared World) local_mbox items acc0 :
  (forall ch cloud_msg, (ch, cloud_msg) ∈ items ->
                        mailbox cloud_msg ∈ dict_keys acc0) ->
  exists acc, ofold (group_message sh local_mbox) items acc0 = Return acc.
Proof.
  revert acc0. induction items as [|[ch1 m1] items IH]; intros acc0 Hall;
    [by eexists | rewrite ofold_cons].
  destruct (proj2 (dict_get_is_Some _ _) (Hall ch1 m1 (list_elem_of_here _ _)))
    as [td Hget].
  destruct (group_message sh local_mbox acc0 (ch1, m1)) as [acc1|e] eqn:Hstep.
  - apply group_message_inv in Hstep as (td' & Hget' & ->). simpl. apply IH.
    intros ch m Hin. rewrite dict_keys_set, Hget'.
    by apply (Hall ch m), list_elem_of_further.
  - unfold group_message in Hstep. by rewrite Hget in Hstep.
Qed.

Lemma group_by_cloud_returns cfg (sh : Shared World) (prev : MBoxDict) :
  (forall local_mbox target ch cloud_msg,
     (local_mbox, target) ∈ dict_items prev ->
     (ch, cloud_msg) ∈ dict_items target ->
     mailbox cloud_msg ∈ cloud_mboxes cfg) ->
  exists by_cloud, group_by_cloud cfg sh prev = Return by_cloud.
Proof.
  unfold group_by_cloud, dict_items. intros Hall.
  assert (Hgen : forall acc0 : dict Mailbox CHMsgMappingDict,
             (forall c, c ∈ cloud_mboxes cfg -> c ∈ dict_keys acc0) ->
             exists by_cloud,
               ofold (fun acc entry =>
                        ofold (group_message sh entry.1) entry.2 acc)
                 prev acc0 = Return by_cloud).
  { induction prev as [|[local_mbox target] prev IH]; intros acc0 Hkeys;
      [by eexists | rewrite ofold_cons].
    destruct (group_items_returns sh local_mbox target acc0) as [acc1 Hinner].
    { intros ch m Hin. apply Hkeys. eapply Hall; [apply list_elem_of_here|done]. }
    simpl. rewrite Hinner. simpl. apply IH.
    - intros l t ch m Hentry. apply (Hall l t). by apply list_elem_of_further.
    - apply group_items_keys in Hinner as [-> _]. done. }
  apply Hgen. intros c Hc. by apply dict_fromkeys_elem_keys.
Qed.

(** X14.  When every message of the previous routing belongs to a configured
    cloud mailbox and no cloud mailbox is configured twice,
    [update_cloud_from_local] compares every configured cloud mailbox exactly
    once, in configuration order; a cloud mailbox that none of the routed
    messages belongs to is compared against the empty mapping. *)
Theorem every_cloud_mailbox_compared_once (cfg : Config) (prev : MBoxDict)
    (st : State World) :
  NoDup (cloud_mboxes cfg) ->
  (forall local_mbox target ch cloud_msg,
     (local_mbox, target) ∈ dict_items prev ->
     (ch, cloud_msg) ∈ dict_items target ->
     mailbox cloud_msg ∈ cloud_mboxes cfg) ->
  omap compared_mailbox (update_cloud_from_local cfg prev st).2 =
  cloud_mboxes cfg /\
  forall c,
    c ∈ cloud_mboxes cfg ->
    (forall local_mbox target ch cloud_msg,
       (local_mbox, target) ∈ dict_items prev ->
       (ch, cloud_msg) ∈ dict_items target -> mailbox cloud_msg <> c) ->
    exists same,
      EvSameMessagesTuple c [] same ∈ (update_cloud_from_local cfg prev st).2.
Proof.
  intros Hnd Hall.
  destruct (group_by_cloud_returns cfg (shared st) prev Hall)
    as [by_cloud Hgroup].
  rewrite (update_events_eq _ _ _ _ Hgroup).
  apply group_by_cloud_inv in Hgroup as (Hkeys & _ & Hsound).
  rewrite dict_fromkeys_keys in Hkeys by done. split.
  - rewrite omap_app. rewrite <- Hkeys. unfold dict_keys.
    replace (omap compared_mailbox
               ((fun entry : Mailbox * CHMsgMappingDict =>
                   EvMergeContent entry.1 entry.2)
                <$> filter (fun entry =>
                              same_messages_tuple entry.1 (shared st) entry.2
                              = false) by_cloud))
      with (@nil Mailbox).
    + rewrite app_nil_r. clear.
      induction by_cloud as [|[c td] l IH]; [done|]. csimpl. by rewrite IH.
    + generalize (filter (fun entry : Mailbox * CHMsgMappingDict =>
                            same_messages_tuple entry.1 (shared st) entry.2
                            = false) by_cloud).
      intros l. induction l as [|entry l IH]; [done|]. by csimpl.
  - intros c Hc Hnone.
    assert (Hkey : c ∈ dict_keys by_cloud) by by rewrite Hkeys.
    apply dict_get_is_Some in Hkey as [td Hget].
    assert (td = []) as ->.
    { destruct td as [|[ch [local_msg cloud_msg]] td]; [done|]. exfalso.
      destruct (Hsound c _ ch local_msg cloud_msg Hget) as
        (Hmb & local_mbox & target & Hentry & Hin & _).
      { simpl. by rewrite decide_True. }
      by eapply Hnone. }
    exists (same_messages_tuple c (shared st) []).
    apply elem_of_app. left. apply list_elem_of_fmap.
    exists (c, []). split; [done|]. by apply dict_get_Some_elem.
Qed.

(** *** The loop across iterations *)

Lemma wait_starts msgs (st : State World) :
  exists rest, (wait_for_change msgs st).2 = EvWait :: rest.
Proof.
  unfold wait_for_change. rewrite bind_run. unfold call at 1.
  destruct (changed_event_wait (shared st)) as [[[]|e] sh1]; simpl; eauto.
Qed.

Lemma cycle_first_events cfg (st : State World) ev :
  ev ∈ (cycle_body cfg None st).2 -> is_merge_step ev = false.
Proof.
  unfold cycle_body. rewrite bind_run.
  pose proof (refresh_events cfg st) as Hr.
  destruct (refresh cfg st) as [[[[]|e] st1] r]; simpl in *.
  - rewrite bind_run. simpl.
    destruct (force_events cfg st1) as (items & _ & Hf%force_trace_route).
    intros [Hin|Hin]%elem_of_app.
    + apply (forallb_elem _ _ _ Hr) in Hin. by destruct ev.
    + apply (forallb_elem _ _ _ Hf) in Hin. by destruct ev.
  - intros Hin. apply (forallb_elem _ _ _ Hr) in Hin. by destruct ev.
Qed.

Lemma iteration_first cfg (st st1 : State World) step evs :
  iteration cfg None st = (step, st1, evs) ->
  (forall ev, ev ∈ evs -> is_merge_step ev = false) /\
  (forall msgs, step = Continue (Some msgs) -> EvWait ∈ evs).
Proof.
  unfold iteration. pose proof (cycle_first_events cfg st) as Hbody.
  destruct (cycle_body cfg None st) as [[[msgs'|e] st0] evs0]; simpl in Hbody.
  - pose proof (wait_events msgs' st0) as Hw.
    destruct (wait_starts msgs' st0) as [rest Hstart].
    destruct (wait_for_change msgs' st0) as [[[[]|e] st2] evs2];
      simpl in *; intros [= <- <- <-]; subst evs2; (split; [|intros msgs Heq]).
    + intros ev [Hin|Hin]%elem_of_app; [by apply Hbody|].
      apply (forallb_elem _ _ _ Hw) in Hin. by destruct ev.
    + apply elem_of_app. right. apply list_elem_of_here.
    + intros ev [Hin|Hin]%elem_of_app; [by apply Hbody|].
      apply (forallb_elem _ _ _ Hw) in Hin. by destruct ev.
    + done.
  - destruct (except_matches retry_clause e).
    + rewrite retry_later_run. intros [= <- <- <-]. split; [|done].
      intros ev [Hin|Hin]%elem_of_app; [by apply Hbody|].
      apply elem_of_cons in Hin as [->|Hin]; [done|].
      by apply list_elem_of_singleton in Hin as ->.
    + intros [= <- <- <-]. by split.
Qed.

Lemma main_loop_first cfg fuel (st : State World) i evs ev :
  (main_loop cfg fuel None st).2 !! i = Some evs ->
  ev ∈ evs -> is_merge_step ev = true ->
  exists j evs',
    j < i /\ (main_loop cfg fuel None st).2 !! j = Some evs' /\ EvWait ∈ evs'.
Proof.
  revert st i. induction fuel as [|fuel IH]; intros st i; [done|].
  rewrite main_loop_S.
  destruct (iteration cfg None st) as [[step st1] evs0] eqn:Hit.
  apply iteration_first in Hit as [Hnone Hwait].
  destruct step as [next|e].
  - specialize (IH st1).
    destruct (main_loop cfg fuel next st1) as [[r st2] rest] eqn:Hloop.
    simpl. destruct i as [|i]; simpl.
    + intros [= <-] Hin Hm. apply Hnone in Hin. congruence.
    + intros Hi Hin Hm. destruct next as [msgs|].
      * exists 0, evs0. split_and!; [lia | done | by eapply Hwait].
      * rewrite Hloop in IH. simpl in IH.
        destruct (IH i Hi Hin Hm) as (j & evs' & Hj & Hlook & Hw).
        exists (S j), evs'. split_and!; [lia | done | done].
  - simpl. destruct i as [|i]; simpl; [|done].
    intros [= <-] Hin Hm. apply Hnone in Hin. congruence.
Qed.

(** X15.  No comparison or merge of [update_cloud_from_local] happens in an
    iteration of the loop unless an earlier iteration of the same run
    completed its routing and went on to wait for a change: the first
    iteration never merges, and neither does any iteration that only follows
    retried ones. *)
Theorem no_merge_before_first_routing (cfg : Config) (fuel : nat)
    (st : State World) (i : nat) (evs : list Event) (ev : Event) :
  cycles (synchronize_mail cfg fuel st) !! i = Some evs ->
  ev ∈ evs -> is_merge_step ev = true ->
  exists j evs',
    j < i /\ cycles (synchronize_mail cfg fuel st) !! j = Some evs' /\
    EvWait ∈ evs'.
Proof.
  rewrite synchronize_mail_cycles_run. unfold try_block.
  destruct (startup cfg (new_web_app st)) as [[[[]|e] st1] sevs]; simpl;
    [|done].
  pose proof (main_loop_first cfg fuel st1 i evs ev) as Hloop.
  by destruct (main_loop cfg fuel None st1) as [[r st2] cs].
Qed.

(** X16.  An iteration that got as far as waiting for a change never takes
    the retry path: it logs no failure and does not sleep.  It either runs
    to its debug log and hands the new routing result to the next iteration,
    or leaves the loop with the exception that [changed_event.wait] or
    [cleanup_msgs] raised, whatever its class, also a class that the
    [except] clause names. *)
Theorem waiting_iteration_never_retries (cfg : Config)
    (msgs : option MBoxDict) (st st' : State World) (step : Step)
    (evs : list Event) :
  iteration cfg msgs st = (step, st', evs) ->
  EvWait ∈ evs ->
  (forall ev, ev ∈ evs ->
     (forall text, ev <> EvLogException text) /\ (forall n, ev <> EvSleep n)) /\
  exists msgs' st1 evs1,
    cycle_body cfg msgs st = (Return msgs', st1, evs1) /\
    match step with
    | Continue next =>
        next = Some msgs' /\
        evs = evs1 ++ [EvWait; EvClear; EvCleanupMsgs msgs';
                       EvLogDebug "Changed event, looping"]
    | Stop e =>
        ((changed_event_wait (shared st1)).1 = Raise e /\
         evs = evs1 ++ [EvWait]) \/
        ((exists sh, (cleanup_msgs msgs' sh).1 = Raise e) /\
         evs = evs1 ++ [EvWait; EvClear; EvCleanupMsgs msgs'])
    end.
Proof.
  intros Hit Hwait.
  destruct (cycle_body_events cfg msgs st) as (r & m & f & Hev & Hr & Hm & Hf).
  assert (Hbody : forall ev, ev ∈ (cycle_body cfg msgs st).2 ->
                             is_wait_step ev = false).
  { rewrite Hev. intros ev Hin.
    pose proof (refresh_events cfg st) as Hrs. rewrite <- Hr in Hrs.
    apply merge_trace_step in Hm.
    destruct Hf as (items & _ & Hf%force_trace_route).
    rewrite !elem_of_app in Hin. destruct Hin as [Hin|[Hin|Hin]].
    - apply (forallb_elem _ _ _ Hrs) in Hin. by destruct ev.
    - apply (forallb_elem _ _ _ Hm) in Hin. by destruct ev.
    - apply (forallb_elem _ _ _ Hf) in Hin. by destruct ev. }
  clear Hev Hr Hm Hf. unfold iteration in Hit.
  destruct (cycle_body cfg msgs st) as [[[msgs'|e] st1] evs1]; simpl in Hbody.
  - assert (Hquiet : forall tail ev,
               ev ∈ evs1 ++ tail ->
               (forall ev', ev' ∈ tail -> is_wait_step ev' = true ->
                  (forall text, ev' <> EvLogException text) /\
                  (forall n, ev' <> EvSleep n)) ->
               (forall text, ev <> EvLogException text) /\
               (forall n, ev <> EvSleep n)).
    { intros tail ev [Hin|Hin]%elem_of_app Htail.
      - apply Hbody in Hin. by destruct ev.
      - destruct ev; try done. all: by apply Htail. }
    revert Hit. unfold wait_for_change, bind, call, call_total. simpl.
    destruct (changed_event_wait (shared st1)) as [[[]|e] sh1] eqn:Hw; simpl.
    + destruct (cleanup_msgs msgs' (changed_event_clear sh1))
        as [[[]|e] sh2] eqn:Hc; simpl; intros [= <- <- <-].
      * split.
        -- intros ev Hin. apply (Hquiet _ _ Hin). intros ev' Htail _.
           repeat (apply elem_of_cons in Htail as [->|Htail]; [done|]).
           by apply elem_of_nil in Htail.
        -- exists msgs', st1, evs1. by split_and!.
      * split.
        -- intros ev Hin. apply (Hquiet _ _ Hin). intros ev' Htail _.
           repeat (apply elem_of_cons in Htail as [->|Htail]; [done|]).
           by apply elem_of_nil in Htail.
        -- exists msgs', st1, evs1. split; [done|]. right. split; [|done].
           exists (changed_event_clear sh1). by rewrite Hc.
    + intros [= <- <- <-]. split.
      * intros ev Hin. apply (Hquiet _ _ Hin). intros ev' Htail _.
        by apply list_elem_of_singleton in Htail as ->.
      * exists msgs', st1, evs1. split; [done|]. left. by rewrite Hw.
  - exfalso. destruct (except_matches retry_clause e).
    + rewrite retry_later_run in Hit. injection Hit as <- <- <-.
      apply elem_of_app in Hwait as [Hin|Hin].
      * by apply Hbody in Hin.
      * apply elem_of_cons in Hin as [?|Hin]; [done|].
        by apply list_elem_of_singleton in Hin.
    + injection Hit as <- <- <-. by apply Hbody in Hwait.
Qed.

(** *** Before the loop *)

Lemma go_run (st : State World) :
  let started :=
    {| shared := shared st;
       web_app := {| OAuth.runner := Some OAuth.mkAppRunner;
                     OAuth.auth_redirs := OAuth.auth_redirs (web_app st) |} |} in
  go st =
  match runner_setup (shared st) with
  | (Return _, sh1) =>
      let '(o, sh2) := site_start sh1 in
      (o, {| shared := sh2; web_app := web_app started |},
       [EvRunnerSetup; EvSiteStart])
  | (Raise e, sh1) =>
      (Raise e, {| shared := sh1; web_app := web_app started |},
       [EvRunnerSetup])
  end.
Proof.
  unfold go, bind, call. simpl.
  destruct (runner_setup (shared st)) as [[[]|e] sh1]; simpl; [|done].
  by destruct (site_start sh1) as [o sh2].
Qed.

(** X17.  [close] after [go] calls [cleanup] on the runner exactly once,
    also when [go] failed while setting the runner up or while starting the
    site; [go] starts the site only after the set-up of the runner returned;
    and [close] on a broker that was never started makes no call. *)
Theorem close_cleans_up_after_go (st : State World) :
  (close (go st).1.2).2 = [EvRunnerCleanup] /\
  ((go st).2 = [EvRunnerSetup; EvSiteStart] /\
     (runner_setup (shared st)).1 = Return tt \/
   (go st).2 = [EvRunnerSetup] /\
     (exists e, (go st).1.1 = Raise e /\
                (runner_setup (shared st)).1 = Raise e)) /\
  close (new_web_app st) = (Return tt, new_web_app st, []).
Proof.
  rewrite go_run. split_and!; [| |done].
  - destruct (runner_setup (shared st)) as [[[]|e] sh1]; simpl.
    + destruct (site_start sh1) as [o sh2]. unfold close, call. simpl.
      by destruct (runner_cleanup sh2).
    + unfold close, call. simpl. by destruct (runner_cleanup sh1).
  - destruct (runner_setup (shared st)) as [[[]|e] sh1]; simpl.
    + destruct (site_start sh1) as [o sh2]. by left.
    + right. eauto.
Qed.


(** *** Leaving *)


End Proofs.

(** *** The engine on further scenarios *)

Import Scenarios MoreScenarios.

Lemma targets_hold_only_routed_cloud_entries_witness :
  0 ∈ local_mboxes one_cloud /\
  direct_message one_cloud m1 = Return 0 /\
  exists mbox,
    mbox ∈ cloud_mboxes one_cloud /\
    ("k1", m1) ∈ dict_items (@messages unit (scripted inbox) mbox (shared start)).
Proof.
  apply (targets_hold_only_routed_cloud_entries (H := scripted inbox)
           one_cloud start _ _ _ eq_refl 0 [("k1", m1); ("k2", m2)] "k1" m1);
    apply list_elem_of_here.
Defined.

Lemma one_target_per_local_mailbox_witness :
  dict_keys routed = local_mboxes one_cloud.
Proof.
  destruct (one_target_per_local_mailbox (H := scripted inbox)
              one_cloud start _ _ _ eq_refl) as (_ & _ & Hkeys).
  apply Hkeys. apply NoDup_singleton.
Defined.

Lemma empty_cloud_gives_empty_targets_witness :
  @route unit (scripted inbox) empty_cloud (shared start) = Return [(0, [])].
Proof.
  apply (proj1 (empty_cloud_gives_empty_targets (H := scripted inbox)
                  empty_cloud start
                  ltac:(by intros mbox ->%list_elem_of_singleton))).
Defined.

Lemma misrouting_raises_before_any_call_witness :
  @force_local_to_cloud unit (scripted inbox) misrouting start =
  (Raise KeyError, start, []).
Proof.
  destruct (misrouting_raises_before_any_call (H := scripted inbox)
              misrouting start 1 "k1" m1 5) as (e & Hrun & He).
  - apply list_elem_of_here.
  - apply list_elem_of_here.
  - reflexivity.
  - by intros ?%list_elem_of_singleton.
  - rewrite Hrun, He; [reflexivity|]. intros msg'. by exists 5.
Defined.

Lemma force_failure_stops_the_loop_witness :
  exists reached mbox d rest,
    dict_items routed = reached ++ (mbox, d) :: rest /\
    last [EvSameMessages 0 [("k1", m1); ("k2", m2)] false;
          EvForceContent 0 [("k1", m1); ("k2", m2)]] =
    Some (EvForceContent mbox d).
Proof.
  destruct (force_failure_stops_the_loop (H := scripted maildir_fails)
              one_cloud start _ _ _ _ eq_refl eq_refl)
    as (reached & mbox & d & rest & Hitems & Hlast & _).
  by exists reached, mbox, d, rest.
Defined.

Lemma idle_cycle_changes_nothing_witness :
  @cycle_body unit (scripted quiet) one_cloud (Some routed) start =
  (Return routed, start,
   [EvSameMessagesTuple 1 paired true;
    EvSameMessages 0 [("k1", m1); ("k2", m2)] true]).
Proof.
  apply (idle_cycle_changes_nothing (H := scripted quiet) one_cloud start
           routed routed [(1, paired)]); reflexivity.
Defined.

Lemma default_policy_fills_first_maildir_only_witness :
  dict_get 3 [(0, [("k1", m1); ("k2", m2)]); (3, [])] = Some [].
Proof.
  destruct (default_policy_fills_first_maildir_only (H := scripted inbox)
              two_maildirs start 0 [3] _ _ _ eq_refl eq_refl eq_refl)
    as [_ Hothers].
  apply Hothers; [apply list_elem_of_here | discriminate].
Defined.

Lemma merge_pairs_cloud_record_with_local_witness :
  1 ∈ cloud_mboxes one_cloud /\ mailbox m1 = 1.
Proof.
  destruct (merge_pairs_cloud_record_with_local (H := scripted inbox)
              one_cloud routed start (EvMergeContent 1 paired) 1 paired)
    as [Hcloud Hpaired].
  - apply list_elem_of_further, list_elem_of_here.
  - by left.
  - split; [exact Hcloud|]. apply (Hpaired "k1" None m1 eq_refl).
Defined.

Lemma foreign_message_stops_the_loop_witness :
  @update_cloud_from_local unit (scripted inbox) one_cloud foreign start =
  (Raise KeyError, start, []).
Proof.
  apply (proj1 (foreign_message_stops_the_loop (H := scripted inbox)
                  one_cloud foreign start 0 [("k9", m3)] "k9" m3
                  (list_elem_of_here _ _) (list_elem_of_here _ _)
                  ltac:(by intros ?%list_elem_of_singleton))).
Defined.

Lemma every_cloud_mailbox_compared_once_witness :
  omap compared_mailbox
    ((@update_cloud_from_local unit (scripted inbox) two_clouds routed start).2) =
  [1; 2] /\
  exists same,
    EvSameMessagesTuple 2 [] same ∈
    (@update_cloud_from_local unit (scripted inbox) two_clouds routed start).2.
Proof.
  destruct (every_cloud_mailbox_compared_once (H := scripted inbox)
              two_clouds routed start) as [Horder Hempty].
  - compute_done.
  - intros local_mbox target ch cloud_msg
      [= -> ->]%list_elem_of_singleton Hin.
    repeat (apply elem_of_cons in Hin as [[= -> ->]|Hin];
            [apply list_elem_of_here|]).
    by apply elem_of_nil in Hin.
  - split; [exact Horder|]. apply Hempty.
    + apply list_elem_of_further, list_elem_of_here.
    + intros local_mbox target ch cloud_msg
        [= -> ->]%list_elem_of_singleton Hin.
      repeat (apply elem_of_cons in Hin as [[= -> ->]|Hin]; [discriminate|]).
      by apply elem_of_nil in Hin.
Defined.

Lemma no_merge_before_first_routing_witness :
  exists j evs',
    j < 1 /\
    cycles (@synchronize_mail unit (scripted inbox) one_cloud 2 start) !! j =
    Some evs' /\
    EvWait ∈ evs'.
Proof.
  eapply (no_merge_before_first_routing (H := scripted inbox) one_cloud 2
            start 1 _ (EvMergeContent 1 paired)).
  - reflexivity.
  - do 2 apply list_elem_of_further. apply list_elem_of_here.
  - reflexivity.
Defined.

Lemma waiting_iteration_never_retries_witness :
  exists msgs' st1 evs1,
    @cycle_body unit cleanup_fails one_cloud None start =
    (Return msgs', st1, evs1) /\
    (((@changed_event_wait unit cleanup_fails (shared st1)).1 = Raise IOError /\
      [EvUpdateMessageList 0;
       EvSameMessages 0 [("k1", m1); ("k2", m2)] false;
       EvForceContent 0 [("k1", m1); ("k2", m2)];
       EvWait; EvClear; EvCleanupMsgs routed] = evs1 ++ [EvWait]) \/
     ((exists sh, (@cleanup_msgs unit cleanup_fails msgs' sh).1 = Raise IOError) /\
      [EvUpdateMessageList 0;
       EvSameMessages 0 [("k1", m1); ("k2", m2)] false;
       EvForceContent 0 [("k1", m1); ("k2", m2)];
       EvWait; EvClear; EvCleanupMsgs routed] =
      evs1 ++ [EvWait; EvClear; EvCleanupMsgs msgs'])).
Proof.
  refine (proj2 (waiting_iteration_never_retries (H := cleanup_fails)
                   one_cloud None start _ (Stop IOError) _ eq_refl _)).
  do 3 apply list_elem_of_further. apply list_elem_of_here.
Defined.


End MainMore.
(** ** The configuration script *)
Module ConfigSpec.
Import Main ConfigScript.

Lemma declare_all_snoc ds d s :
  declare_all (ds ++ [d]) s = (declare d (declare_all ds s)).2.
Proof. unfold declare_all. by rewrite foldl_app. Qed.

Lemma StronglySorted_snoc (l : list nat) n :
  StronglySorted lt l -> (forall m, m ∈ l -> m < n) ->
  StronglySorted lt (l ++ [n]).
Proof.
  induction 1 as [|m l Hl IH Hm]; intros Hlt; simpl.
  - repeat constructor.
  - constructor.
    + apply IH. intros m' Hin. by apply Hlt, list_elem_of_further.
    + apply Forall_app. split; [done|].
      constructor; [|constructor]. apply Hlt, list_elem_of_here.
Qed.

Lemma declare_loaded ds d s :
  loaded ds s -> loaded (ds ++ [d]) (declare d s).2.
Proof.
  intros [Hobj Hlocal Hcloud Hlo Hco Hpol].
  assert (Hlen : length (objects s) = length ds).
  { by rewrite Hobj, length_fmap. }
  assert (Hold : forall mbox d', ds !! mbox = Some d' -> mbox < length ds).
  { intros mbox d' Hlook. by eapply lookup_lt_Some. }
  assert (Hsnoc : forall mbox d',
             (ds ++ [d]) !! mbox = Some d' <->
             ds !! mbox = Some d' \/ (mbox = length ds /\ d' = d)).
  { intros mbox d'. rewrite lookup_snoc_Some. split.
    - intros [[_ Hl]|[-> ->]]; eauto.
    - intros [Hl|[-> ->]]; [left|by right]. split; [|done]. by eapply Hold. }
  destruct d as [directory|name account]; simpl; rewrite Hlen.
  - split; simpl.
    + by rewrite Hobj, fmap_app.
    + intros mbox. rewrite elem_of_app, list_elem_of_singleton, Hlocal.
      split.
      * intros [[dir Hl]| ->]; eexists; apply Hsnoc; eauto.
      * intros [dir [Hl|[-> [= ->]]]%Hsnoc]; eauto.
    + intros mbox. rewrite Hcloud. split.
      * intros (n & a & Hl). exists n, a. apply Hsnoc. eauto.
      * intros (n & a & [Hl|[_ [=]]]%Hsnoc). eauto.
    + apply StronglySorted_snoc; [done|].
      intros m [dir Hl]%Hlocal. by eapply Hold.
    + done.
    + done.
  - split; simpl.
    + by rewrite Hobj, fmap_app.
    + intros mbox. rewrite Hlocal. split.
      * intros (dir & Hl). exists dir. apply Hsnoc. eauto.
      * intros (dir & [Hl|[_ [=]]]%Hsnoc). eauto.
    + intros mbox. rewrite elem_of_app, list_elem_of_singleton, Hcloud.
      split.
      * intros [(n & a & Hl)| ->]; do 2 eexists; apply Hsnoc; eauto.
      * intros (n & a & [Hl|[-> [= -> ->]]]%Hsnoc); eauto.
    + done.
    + apply StronglySorted_snoc; [done|].
      intros m (n & a & Hl)%Hcloud. by eapply Hold.
    + done.
Qed.

Lemma declare_all_loaded ds : loaded ds (declare_all ds init).
Proof.
  induction ds as [|d ds IH] using rev_ind.
  - split; simpl.
    + done.
    + intros mbox. split; [by intros ?%elem_of_nil | by intros [? ?]].
    + intros mbox. split; [by intros ?%elem_of_nil | by intros (? & ? & ?)].
    + constructor.
    + constructor.
    + done.
  - rewrite declare_all_snoc. by apply declare_loaded.
Qed.

Lemma StronglySorted_lt_NoDup (l : list nat) : StronglySorted lt l -> NoDup l.
Proof.
  induction 1 as [|m l Hl IH Hm]; constructor; [|done].
  intros Hin. rewrite Forall_forall in Hm. specialize (Hm m Hin). lia.
Qed.

(** X20.  However a script interleaves its [MailDir] and [Office365] calls,
    every call returns the object it has just made, the configuration ends
    up listing each declared mailbox exactly once, the maildirs under
    [local_mboxes] and the Office365 mailboxes under [cloud_mboxes], each
    list in the order of the calls, and every object carries the arguments
    of its declaration. *)
Theorem declarations_list_each_mailbox_once (ds : list Declaration) :
  let s := declare_all ds init in
  NoDup (all_mboxes (cfg s)) /\
  StronglySorted lt (local_mboxes (cfg s)) /\
  StronglySorted lt (cloud_mboxes (cfg s)) /\
  (forall i d,
     ds !! i = Some d ->
     (declare d (declare_all (take i ds) init)).1 = Return i /\
     objects s !! i = Some (object_of d) /\
     match d with
     | DeclareMailDir _ => i ∈ local_mboxes (cfg s)
     | DeclareOffice365 _ _ => i ∈ cloud_mboxes (cfg s)
     end) /\
  (forall mbox, mbox ∈ all_mboxes (cfg s) -> mbox < length ds).
Proof.
  intros s. destruct (declare_all_loaded ds) as [Hobj Hlocal Hcloud Hlo Hco _].
  fold s in Hobj, Hlocal, Hcloud, Hlo, Hco. split_and!; [|done|done| |].
  - unfold all_mboxes. apply NoDup_app. split_and!.
    + by apply StronglySorted_lt_NoDup.
    + intros mbox [dir Hdir]%Hlocal (n & a & Hl)%Hcloud. congruence.
    + by apply StronglySorted_lt_NoDup.
  - intros i d Hi. split_and!.
    + destruct (declare_all_loaded (take i ds)) as [Hobj' _ _ _ _ _].
      assert (Hlen : length (objects (declare_all (take i ds) init)) = i).
      { rewrite Hobj', length_fmap, length_take.
        apply lookup_lt_Some in Hi. lia. }
      destruct d; simpl; unfold last_item; by rewrite last_snoc, Hlen.
    + by rewrite Hobj, list_lookup_fmap, Hi.
    + destruct d as [dir|n a]; [apply Hlocal | apply Hcloud]; eauto.
  - unfold all_mboxes. intros mbox [[dir Hl]%Hlocal|(n & a & Hl)%Hcloud]%elem_of_app;
      by eapply lookup_lt_Some.
Qed.

(** X21.  After any script of declarations the default routing policy sends
    every message to the maildir that was declared first, whatever was
    declared before or after it, and raises [IndexError] exactly when the
    script declared no maildir; further declarations never change where
    the policy sends a message once it has a destination. *)
Theorem default_policy_is_first_declared_maildir (ds : list Declaration)
    (msg : Message) :
  let policy ds := direct_message (cfg (declare_all ds init)) msg in
  (forall i directory,
     ds !! i = Some (DeclareMailDir directory) ->
     (forall j directory', j < i -> ds !! j <> Some (DeclareMailDir directory')) ->
     policy ds = Return i) /\
  (policy ds = Raise IndexError <->
   forall i directory, ds !! i <> Some (DeclareMailDir directory)) /\
  (forall more dest, policy ds = Return dest -> policy (ds ++ more) = Return dest).
Proof.
  intros policy.
  assert (Hpolicy : forall ds0,
             policy ds0 =
             match local_mboxes (cfg (declare_all ds0 init)) with
             | first :: _ => Return first
             | [] => Raise IndexError
             end).
  { intros ds0. unfold policy, direct_message, _direct_message.
    destruct (declare_all_loaded ds0) as [_ _ _ _ _ ->].
    by destruct (local_mboxes _). }
  destruct (declare_all_loaded ds) as [_ Hlocal _ Hlo _ _]. split_and!.
  - intros i dir Hi Hfirst. rewrite Hpolicy.
    assert (Hin : i ∈ local_mboxes (cfg (declare_all ds init))).
    { apply Hlocal. eauto. }
    destruct (local_mboxes (cfg (declare_all ds init))) as [|first l]; 
      [by apply elem_of_nil in Hin|].
    f_equal. apply elem_of_cons in Hin as [->|Hin]; [done|]. exfalso.
    apply StronglySorted_inv in Hlo as [_ Hall].
    rewrite Forall_forall in Hall. specialize (Hall i Hin).
    destruct (proj1 (Hlocal first) (list_elem_of_here _ _)) as [dir' Hl].
    by eapply Hfirst.
  - rewrite Hpolicy.
    destruct (local_mboxes (cfg (declare_all ds init))) as [|first l] eqn:Hl.
    + split; [|done]. intros _ i dir Hi.
      assert (Hin : i ∈ @nil nat) by (apply Hlocal; eauto).
      by apply elem_of_nil in Hin.
    + split; [done|]. intros Hnone. exfalso.
      destruct (proj1 (Hlocal first) (list_elem_of_here _ _)) as [dir Hi].
      by eapply Hnone.
  - intros more dest. rewrite !Hpolicy.
    assert (Hgrow : forall s s',
               (exists l, local_mboxes (cfg s') = local_mboxes (cfg s) ++ l) ->
               exists l, local_mboxes (cfg (declare_all more s')) =
                         local_mboxes (cfg s) ++ l).
    { induction more as [|d more IH]; intros s s' [l Hl]; [by exists l|].
      simpl. apply IH. destruct d; simpl; rewrite Hl.
      - exists (l ++ [length (objects s')]). by rewrite app_assoc.
      - by exists l. }
    unfold declare_all at 2. rewrite foldl_app. fold (declare_all ds init).
    fold (declare_all more (declare_all ds init)).
    destruct (Hgrow (declare_all ds init) (declare_all ds init)) as [l ->].
    { exists []. by rewrite app_nil_r. }
    by destruct (local_mboxes (cfg (declare_all ds init))).
Qed.

End ConfigSpec.
